(** * FlowSure backend: the scheduled-transfer execution engine

    A shallow embedding of [src/services/scheduledTransferService.js]
    ([executeScheduledTransfer], [processDueTransfers]) together with the
    collaborators it awaits: the mongoose model [ScheduledTransfer]
    ([findById], [find], [save]), the chain layer of
    [scheduledTransferFlowService.js] ([checkAuthorization],
    [executeScheduledTransfer], imported as [executeOnChain]) and
    [generateNextInstance] of the recurring-transfer service.

    JavaScript numbers are IEEE 754 binary64 values, which is what Rocq's
    primitive [float] is; dates are milliseconds since the epoch in [Z].
    A thrown [Error] is identified with its [message].  Every awaited
    collaborator call is appended to a trace and advances a logical clock
    [tick]; what a collaborator answers (or throws) at a given tick is read
    from an environment [Env], so that a theorem quantified over [Env]
    speaks about every pattern of collaborator answers and failures. *)

From Stdlib Require Import ZArith List String Floats Uint63 Lia.
From stdpp Require Import base option list gmap sorting strings pretty.

Local Open Scope Z_scope.

(** ** Data model *)

(** [status]: the enum of the mongoose schema. *)
Inductive Status := scheduled | executing | completed | failed | cancelled.

#[global] Instance Status_eq_dec : EqDecision Status.
Proof. solve_decision. Defined.

Definition statusString (s : Status) : string :=
  match s with
  | scheduled => "scheduled"
  | executing => "executing"
  | completed => "completed"
  | failed => "failed"
  | cancelled => "cancelled"
  end.

(** Document ids ([_id], [parentRecurringId]): opaque ObjectIds. *)
Definition Id := N.

(** One element of [transfer.recipients]; only [address] is read. *)
Record Recipient := { address : string }.

(** The record pushed on [results] for one recipient (lines 63-68, 74-78). *)
Module Result.
Record t := {
  recipient : string;
  transactionId : option string;
  status : Status;
  error : option string
}.
End Result.

(** What [checkAuthorization] resolves to; only these two fields are read. *)
Module Auth.
Record t := { isValid : bool; maxAmount : float }.
End Auth.

(** What [executeOnChain] resolves to; only these three fields are read. *)
Module Send.
Record t := {
  success : bool;
  transactionId : option string;
  error : option string
}.
End Send.

(** The fields of a [ScheduledTransfer] document.  The document's [_id] is
    the key under which the store holds it. *)
Record Transfer := {
  userAddress : string;
  title : string;
  recipient : string;
  recipients : option (list Recipient);
  amount : float;
  amountPerRecipient : bool;
  scheduledDate : Z;
  retryLimit : Z;
  status : Status;
  executedAt : option Z;
  transactionIds : list Result.t;
  transactionId : option string;
  errorMessage : option string;
  parentRecurringId : option Id
}.

(** Field assignments [transfer.f = v]. *)
Definition set_status (s : Status) (t : Transfer) : Transfer :=
  {| userAddress := userAddress t; title := title t; recipient := recipient t;
     recipients := recipients t; amount := amount t;
     amountPerRecipient := amountPerRecipient t;
     scheduledDate := scheduledDate t; retryLimit := retryLimit t;
     status := s; executedAt := executedAt t;
     transactionIds := transactionIds t; transactionId := transactionId t;
     errorMessage := errorMessage t;
     parentRecurringId := parentRecurringId t |}.

Definition set_executedAt (d : Z) (t : Transfer) : Transfer :=
  {| userAddress := userAddress t; title := title t; recipient := recipient t;
     recipients := recipients t; amount := amount t;
     amountPerRecipient := amountPerRecipient t;
     scheduledDate := scheduledDate t; retryLimit := retryLimit t;
     status := status t; executedAt := Some d;
     transactionIds := transactionIds t; transactionId := transactionId t;
     errorMessage := errorMessage t;
     parentRecurringId := parentRecurringId t |}.

Definition set_transactionIds (rs : list Result.t) (t : Transfer) : Transfer :=
  {| userAddress := userAddress t; title := title t; recipient := recipient t;
     recipients := recipients t; amount := amount t;
     amountPerRecipient := amountPerRecipient t;
     scheduledDate := scheduledDate t; retryLimit := retryLimit t;
     status := status t; executedAt := executedAt t;
     transactionIds := rs; transactionId := transactionId t;
     errorMessage := errorMessage t;
     parentRecurringId := parentRecurringId t |}.

Definition set_transactionId (x : option string) (t : Transfer) : Transfer :=
  {| userAddress := userAddress t; title := title t; recipient := recipient t;
     recipients := recipients t; amount := amount t;
     amountPerRecipient := amountPerRecipient t;
     scheduledDate := scheduledDate t; retryLimit := retryLimit t;
     status := status t; executedAt := executedAt t;
     transactionIds := transactionIds t; transactionId := x;
     errorMessage := errorMessage t;
     parentRecurringId := parentRecurringId t |}.

Definition set_errorMessage (m : string) (t : Transfer) : Transfer :=
  {| userAddress := userAddress t; title := title t; recipient := recipient t;
     recipients := recipients t; amount := amount t;
     amountPerRecipient := amountPerRecipient t;
     scheduledDate := scheduledDate t; retryLimit := retryLimit t;
     status := status t; executedAt := executedAt t;
     transactionIds := transactionIds t; transactionId := transactionId t;
     errorMessage := Some m;
     parentRecurringId := parentRecurringId t |}.

Definition set_parentRecurringId (p : Id) (t : Transfer) : Transfer :=
  {| userAddress := userAddress t; title := title t; recipient := recipient t;
     recipients := recipients t; amount := amount t;
     amountPerRecipient := amountPerRecipient t;
     scheduledDate := scheduledDate t; retryLimit := retryLimit t;
     status := status t; executedAt := executedAt t;
     transactionIds := transactionIds t; transactionId := transactionId t;
     errorMessage := errorMessage t;
     parentRecurringId := Some p |}.

(** ** Effects *)

(** An awaited call either throws an [Error] (kept as its message) or
    resolves to a value. *)
Inductive Outcome (A : Type) :=
| Raised (message : string)
| Returned (a : A).
Arguments Raised {A} message.
Arguments Returned {A} a.

(** The collaborator calls the engine awaits. *)
Inductive Event :=
| FindById (id : Id)
| Save (id : Id) (doc : Transfer)
| FindDue (now : Z)
| CheckAuthorization (user : string)
| ExecuteOnChain (user to : string) (value : float) (retries : Z)
| GenerateNextInstance (parent : Id).

(** The collection, the number of collaborator calls made so far, and the
    calls themselves in the order they were made. *)
Record World := {
  store : gmap Id Transfer;
  tick : nat;
  trace : list Event
}.

(** What the outside does at each tick: whether the database fails, what
    the authorization checker and the chain executor answer, what the
    recurrence expander derives, the wall clock, and [Number]'s conversion
    to a string inside template literals. *)
Record Env := {
  findById_fault : nat -> option string;
  save_fault : nat -> option string;
  find_fault : nat -> option string;
  authorization_of : nat -> string -> Outcome Auth.t;
  chain_result : nat -> string -> string -> float -> Z -> Outcome Send.t;
  next_instance : nat -> Id -> Outcome Transfer;
  clock : nat -> Z;
  numberToString : float -> string
}.

Definition M (A : Type) : Type := World -> World * Outcome A.

Definition ret {A} (a : A) : M A := fun w => (w, Returned a).

Definition throw {A} (message : string) : M A := fun w => (w, Raised message).

Definition bind {A B} (c : M A) (k : A -> M B) : M B :=
  fun w =>
    match c w with
    | (w', Returned a) => k a w'
    | (w', Raised m) => (w', Raised m)
    end.

(** [try { body } catch (error) { handler(error.message) }]. *)
Definition tryCatch {A} (body : M A) (handler : string -> M A) : M A :=
  fun w =>
    match body w with
    | (w', Raised m) => handler m w'
    | (w', Returned a) => (w', Returned a)
    end.

Declare Scope js_scope.
Delimit Scope js_scope with js.
Notation "x <- c ;; k" := (bind c (fun x => k))
  (at level 100, c at next level, right associativity) : js_scope.
Notation "c ;;; k" := (bind c (fun _ => k))
  (at level 100, right associativity) : js_scope.

(** A collaborator call is logged and advances the tick. *)
Definition logged (ev : Event) (w : World) : World :=
  {| store := store w; tick := S (tick w); trace := trace w ++ [ev] |}.

Definition with_store (m : gmap Id Transfer) (w : World) : World :=
  {| store := m; tick := tick w; trace := trace w |}.

(** ** The engine *)

Section Engine.

Variable env : Env.

Local Open Scope js_scope.

(** [new Date()]. *)
Definition newDate : M Z := fun w => (w, Returned (clock env (tick w))).

(** [ScheduledTransfer.findById(id)]: [None] is JavaScript's [null]. *)
Definition findById (id : Id) : M (option Transfer) :=
  fun w =>
    match findById_fault env (tick w) with
    | Some m => (logged (FindById id) w, Raised m)
    | None => (logged (FindById id) w, Returned (store w !! id))
    end.

(** [doc.save()] for the document whose [_id] is [id]. *)
Definition save (id : Id) (doc : Transfer) : M unit :=
  fun w =>
    match save_fault env (tick w) with
    | Some m => (logged (Save id doc) w, Raised m)
    | None =>
        (with_store (<[id := doc]> (store w)) (logged (Save id doc) w),
         Returned tt)
    end.

(** [checkAuthorization(userAddress)]: the answer of the chain query, or
    the fixed authorization of development mode, or a thrown query error;
    all of them are the environment's. *)
Definition checkAuthorization (user : string) : M Auth.t :=
  fun w =>
    (logged (CheckAuthorization user) w, authorization_of env (tick w) user).

(** [executeOnChain(userAddress, recipient, amount, retryLimit)]. *)
Definition executeOnChain (user to : string) (value : float) (retries : Z)
  : M Send.t :=
  fun w =>
    (logged (ExecuteOnChain user to value retries) w,
     chain_result env (tick w) user to value retries).

(** Modelled from the spec: [generateNextInstance] of
    [recurringTransferService.js], whose source is not at hand.  Section 4.6
    of the design has it compute the next occurrence and create one new
    transfer, in [scheduled] status and carrying [parentRecurringId]; what
    the new transfer otherwise holds, or that the call throws instead, is
    left to the environment, and the collection gives the document an id
    that is not in use. *)
Definition generateNextInstance (parent : Id) : M unit :=
  fun w =>
    match next_instance env (tick w) parent with
    | Raised m => (logged (GenerateNextInstance parent) w, Raised m)
    | Returned t =>
        (with_store
           (<[fresh (dom (store w)) :=
                set_status scheduled (set_parentRecurringId parent t)]>
              (store w))
           (logged (GenerateNextInstance parent) w),
         Returned tt)
    end.

(** [recipients.length] as a JavaScript number (exact for every length
    an array can have). *)
Definition lengthNumber {A} (l : list A) : float :=
  PrimFloat.of_uint63 (Uint63.of_Z (Z.of_nat (length l))).

(** Lines 29-31: the recipient list, or the single legacy recipient. *)
Definition normalizedRecipients (transfer : Transfer) : list Recipient :=
  match recipients transfer with
  | Some rs =>
      if (0 <? length rs)%nat then rs
      else [ {| address := recipient transfer |} ]
  | None => [ {| address := recipient transfer |} ]
  end.

(** Lines 33-35. *)
Definition totalAmount (transfer : Transfer) (rs : list Recipient) : float :=
  if amountPerRecipient transfer
  then PrimFloat.mul (amount transfer) (lengthNumber rs)
  else amount transfer.

(** Lines 51-53. *)
Definition recipientAmount (transfer : Transfer) (rs : list Recipient)
  : float :=
  if amountPerRecipient transfer
  then amount transfer
  else PrimFloat.div (amount transfer) (lengthNumber rs).

(** Lines 63-68: the record for a send that resolved. *)
Definition sentRecord (r : Recipient) (result : Send.t) : Result.t :=
  {| Result.recipient := address r;
     Result.transactionId := Send.transactionId result;
     Result.status := if Send.success result then completed else failed;
     Result.error := Send.error result |}.

(** Lines 74-78: the record for a send that threw. *)
Definition thrownRecord (r : Recipient) (message : string) : Result.t :=
  {| Result.recipient := address r;
     Result.transactionId := None;
     Result.status := failed;
     Result.error := Some message |}.

(** Lines 50-81: the loop over [recipients]; [todo] is the part of the
    list still to visit, [results] and [allSuccessful] are the two
    variables the loop body updates. *)
Fixpoint fanOut (transfer : Transfer) (rs todo : list Recipient)
    (results : list Result.t) (allSuccessful : bool)
  : M (list Result.t * bool) :=
  match todo with
  | [] => ret (results, allSuccessful)
  | r :: rest =>
      st <- tryCatch
              (result <- executeOnChain (userAddress transfer) (address r)
                           (recipientAmount transfer rs)
                           (retryLimit transfer) ;;
               ret (results ++ [sentRecord r result],
                    if Send.success result then allSuccessful else false))
              (fun message =>
                 ret (results ++ [thrownRecord r message], false)) ;;
      fanOut transfer rs rest st.1 st.2
  end.

(** What [executeScheduledTransfer] resolves to. *)
Inductive ExecResult :=
| ExecSuccess (transfer : Transfer) (results : list Result.t)
| ExecFailure (error : string).

Definition success (r : ExecResult) : bool :=
  match r with ExecSuccess _ _ => true | ExecFailure _ => false end.

Definition failedCount (results : list Result.t) : nat :=
  length (filter (fun r => Result.status r = failed) results).

(** Lines 12-111: the body of the outer [try]. *)
Definition executeBody (transferId : Id) : M ExecResult :=
  found <- findById transferId ;;
  match found with
  | None => throw "Scheduled transfer not found"
  | Some transfer =>
      if negb (bool_decide (status transfer = scheduled)) then
        throw ("Transfer status is " +:+ statusString (status transfer)
               +:+ ", cannot execute")
      else
        authCheck <- checkAuthorization (userAddress transfer) ;;
        if negb (Auth.isValid authCheck) then
          throw "User authorization is invalid or expired"
        else
          let rs := normalizedRecipients transfer in
          let total := totalAmount transfer rs in
          if PrimFloat.ltb (Auth.maxAmount authCheck) total then
            throw ("Total transfer amount " +:+ numberToString env total
                   +:+ " exceeds authorized maximum "
                   +:+ numberToString env (Auth.maxAmount authCheck))
          else
            let transfer := set_status executing transfer in
            save transferId transfer ;;;
            st <- fanOut transfer rs rs [] true ;;
            let results := st.1 in
            if st.2 then
              now <- newDate ;;
              let transfer :=
                set_transactionIds results
                  (set_executedAt now (set_status completed transfer)) in
              transfer <-
                (if (length rs =? 1)%nat then
                   match results with
                   | first :: _ =>
                       ret (set_transactionId (Result.transactionId first)
                              transfer)
                   | [] =>
                       throw "Cannot read properties of undefined (reading 'transactionId')"
                   end
                 else ret transfer) ;;
              save transferId transfer ;;;
              match parentRecurringId transfer with
              | Some parent =>
                  tryCatch (generateNextInstance parent) (fun _ => ret tt)
              | None => ret tt
              end ;;;
              ret (ExecSuccess transfer results)
            else
              throw ("Some transfers failed: " +:+ pretty (failedCount results)
                     +:+ "/" +:+ pretty (length rs))
  end.

(** Lines 112-132: the outer [catch]. *)
Definition executeHandler (transferId : Id) (message : string)
  : M ExecResult :=
  tryCatch
    (found <- findById transferId ;;
     match found with
     | Some transfer =>
         now <- newDate ;;
         save transferId
           (set_errorMessage message
              (set_executedAt now (set_status failed transfer)))
     | None => ret tt
     end)
    (fun _ => ret tt) ;;;
  ret (ExecFailure message).

Definition executeScheduledTransfer (transferId : Id) : M ExecResult :=
  tryCatch (executeBody transferId) (executeHandler transferId).

End Engine.

(** ** The scheduler *)

(** One element of the [results] array of [processDueTransfers]:
    [{ transferId, title, ...result }]. *)
Module Entry.
Record t := { transferId : Id; title : string; result : ExecResult }.
End Entry.

(** What [processDueTransfers] resolves to: the early return of lines
    150-153, or the summary of lines 173-178. *)
Inductive Summary :=
| NothingDue (processed : nat) (message : string)
| Processed (processed successful failed : nat) (results : list Entry.t).

(** The query [{ status: 'scheduled', scheduledDate: { $lte: now } }]. *)
Definition IsDue (now : Z) (t : Transfer) : Prop :=
  status t = scheduled ∧ scheduledDate t ≤ now.

#[global] Instance IsDue_dec now t : Decision (IsDue now t).
Proof. unfold IsDue. apply _. Defined.

(** The order of [.sort({ scheduledDate: 1 })]. *)
Definition byScheduledDate (a b : Id * Transfer) : Prop :=
  scheduledDate a.2 ≤ scheduledDate b.2.

#[global] Instance byScheduledDate_dec : RelDecision byScheduledDate.
Proof. intros a b. unfold byScheduledDate. apply _. Defined.

(** The documents the query of lines 144-147 yields, each with its [_id]. *)
Definition dueTransfers (now : Z) (m : gmap Id Transfer)
  : list (Id * Transfer) :=
  merge_sort byScheduledDate
    (filter (fun kt => IsDue now kt.2) (map_to_list m)).

Section Scheduler.

Variable env : Env.

Local Open Scope js_scope.

(** [ScheduledTransfer.find({...}).sort({...})]. *)
Definition find (now : Z) : M (list (Id * Transfer)) :=
  fun w =>
    match find_fault env (tick w) with
    | Some m => (logged (FindDue now) w, Raised m)
    | None => (logged (FindDue now) w, Returned (dueTransfers now (store w)))
    end.

(** Lines 159-166: the loop over [dueTransfers]. *)
Fixpoint executeEach (todo : list (Id * Transfer)) (results : list Entry.t)
  : M (list Entry.t) :=
  match todo with
  | [] => ret results
  | transfer :: rest =>
      result <- executeScheduledTransfer env transfer.1 ;;
      executeEach rest
        (results ++ [ {| Entry.transferId := transfer.1;
                         Entry.title := title transfer.2;
                         Entry.result := result |} ])
  end.

Definition successfulCount (results : list Entry.t) : nat :=
  length (filter (fun r => success (Entry.result r) = true) results).

Definition failedEntries (results : list Entry.t) : nat :=
  length (filter (fun r => success (Entry.result r) = false) results).

Definition processDueTransfers : M Summary :=
  tryCatch
    (now <- newDate env ;;
     due <- find now ;;
     if (length due =? 0)%nat then
       ret (NothingDue 0 "No due transfers to process")
     else
       results <- executeEach due [] ;;
       ret (Processed (length due) (successfulCount results)
              (failedEntries results) results))
    (fun message => throw message).

End Scheduler.

(** ** Sample data *)

Module Sample.

Local Open Scope float_scope.

Definition transfer (to : list string) (value : float) (each : bool)
    (due : Z) (st : Status) (parent : option Id) : Transfer :=
  {| userAddress := "0xuser"; title := "rent"; recipient := "0xlegacy";
     recipients := Some (map (fun a => {| address := a |}) to);
     amount := value; amountPerRecipient := each;
     scheduledDate := due; retryLimit := 3%Z;
     status := st; executedAt := None;
     transactionIds := []; transactionId := None;
     errorMessage := None; parentRecurringId := parent |}.

Definition world (m : gmap Id Transfer) : World :=
  {| store := m; tick := 0; trace := [] |}.

(** An environment in which nothing fails: the authorization allows
    [limit], every send is sealed with transaction id [tx_<recipient>]. *)
Definition calm (limit : float) : Env :=
  {| findById_fault := fun _ => None;
     save_fault := fun _ => None;
     find_fault := fun _ => None;
     authorization_of := fun _ _ =>
       Returned {| Auth.isValid := true; Auth.maxAmount := limit |};
     chain_result := fun _ _ to _ _ =>
       Returned {| Send.success := true;
                   Send.transactionId := Some ("tx_" +:+ to);
                   Send.error := None |};
     next_instance := fun _ _ =>
       Returned (transfer ["0xnext"] 1 false 1000%Z scheduled None);
     clock := fun n => (500 + Z.of_nat n)%Z;
     numberToString := fun _ => "<number>" |}.

(** As [calm], but sends to the address [bad] come back unsuccessful. *)
Definition rejecting (limit : float) (bad : string) : Env :=
  {| findById_fault := fun _ => None;
     save_fault := fun _ => None;
     find_fault := fun _ => None;
     authorization_of := authorization_of (calm limit);
     chain_result := fun _ _ to _ _ =>
       if String.eqb to bad then
         Returned {| Send.success := false; Send.transactionId := None;
                     Send.error := Some "sealed with an error" |}
       else
         Returned {| Send.success := true;
                     Send.transactionId := Some ("tx_" +:+ to);
                     Send.error := None |};
     next_instance := next_instance (calm limit);
     clock := clock (calm limit);
     numberToString := numberToString (calm limit) |}.

(** As [calm], but the expander throws. *)
Definition stuckExpander (limit : float) : Env :=
  {| findById_fault := fun _ => None;
     save_fault := fun _ => None;
     find_fault := fun _ => None;
     authorization_of := authorization_of (calm limit);
     chain_result := chain_result (calm limit);
     next_instance := fun _ _ => Raised "recurrence definition not found";
     clock := clock (calm limit);
     numberToString := numberToString (calm limit) |}.

(** Ten to each of two recipients, under an authorization of fifteen. *)
Definition overLimit : Transfer :=
  transfer ["A"; "B"] 10 true 10%Z scheduled None.

(** A transfer that was executed before. *)
Definition alreadyDone : Transfer :=
  transfer ["A"] 10 false 10%Z completed None.

(** Twenty split over two recipients. *)
Definition twoWay : Transfer :=
  transfer ["A"; "B"] 20 false 10%Z scheduled None.

(** Thirty split over three recipients. *)
Definition threeWay : Transfer :=
  transfer ["A"; "B"; "C"] 30 false 10%Z scheduled None.

(** A single recipient; the instance of a recurring transfer. *)
Definition recurring : Transfer :=
  transfer ["A"] 5 false 10%Z scheduled (Some 7%N).

(** Three transfers, due at 490 and 495, and not before 505. *)
Definition calendar : gmap Id Transfer :=
  <[1%N := transfer ["A"] 1 false 505%Z scheduled None]>
    (<[2%N := transfer ["B"] 2 false 495%Z scheduled None]>
       {[3%N := transfer ["C"] 3 false 490%Z scheduled None]}).

End Sample.

(** * Descriptions used in the statements *)

(** ** What one pass over the recipients produces *)

(** The call the loop body makes for recipient [r]. *)
Definition sendEvent (transfer : Transfer) (rs : list Recipient)
    (r : Recipient) : Event :=
  ExecuteOnChain (userAddress transfer) (address r)
    (recipientAmount transfer rs) (retryLimit transfer).

(** The record recipient [r] ends up with when its send is made at tick
    [n]. *)
Definition sendRecord (env : Env) (transfer : Transfer)
    (rs : list Recipient) (n : nat) (r : Recipient) : Result.t :=
  match chain_result env n (userAddress transfer) (address r)
          (recipientAmount transfer rs) (retryLimit transfer) with
  | Raised message => thrownRecord r message
  | Returned result => sentRecord r result
  end.

(** The records of the recipients [todo], visited from tick [n] on. *)
Fixpoint sendRecords (env : Env) (transfer : Transfer)
    (rs : list Recipient) (n : nat) (todo : list Recipient)
  : list Result.t :=
  match todo with
  | [] => []
  | r :: rest =>
      sendRecord env transfer rs n r :: sendRecords env transfer rs (S n) rest
  end.

Definition isCompleted (r : Result.t) : bool :=
  bool_decide (Result.status r = completed).

(** The world after the sends to the recipients [todo]. *)
Definition afterSends (transfer : Transfer) (rs todo : list Recipient)
    (w : World) : World :=
  {| store := store w;
     tick := tick w + length todo;
     trace := trace w ++ map (sendEvent transfer rs) todo |}.

(** The [GenerateNextInstance] calls of a trace, in order. *)
Definition generateCalls (evs : list Event) : list Id :=
  omap (fun ev =>
          match ev with GenerateNextInstance p => Some p | _ => None end) evs.

(** The [ExecuteOnChain] calls of a trace, in order. *)
Definition isSend (ev : Event) : bool :=
  match ev with ExecuteOnChain _ _ _ _ => true | _ => false end.

Definition sendCalls (evs : list Event) : list Event := List.filter isSend evs.

(** The database never fails. *)
Definition storeWorks (env : Env) : Prop :=
  ∀ n, findById_fault env n = None ∧ save_fault env n = None.

(** ** Worlds, documents and paths of an execution *)

(** The worlds the body passes through for the transfer [t] loaded under
    [id]: after [findById], after [checkAuthorization], after the attempt to
    save the [executing] status, after that save went through, and after
    the pass over the recipients. *)
Definition loadedWorld (id : Id) (w : World) : World :=
  logged (FindById id) w.

Definition checkedWorld (id : Id) (t : Transfer) (w : World) : World :=
  logged (CheckAuthorization (userAddress t)) (loadedWorld id w).

Definition markAttempt (id : Id) (t : Transfer) (w : World) : World :=
  logged (Save id (set_status executing t)) (checkedWorld id t w).

Definition executingWorld (id : Id) (t : Transfer) (w : World) : World :=
  with_store (<[id := set_status executing t]> (store w)) (markAttempt id t w).

Definition sentWorld (id : Id) (t : Transfer) (w : World) : World :=
  afterSends (set_status executing t) (normalizedRecipients t)
    (normalizedRecipients t) (executingWorld id t w).

(** The records of the pass over the recipients of [t]; the first send is
    the fourth collaborator call of the execution. *)
Definition sendResults (env : Env) (t : Transfer) (w : World)
  : list Result.t :=
  sendRecords env (set_status executing t) (normalizedRecipients t)
    (S (S (S (tick w)))) (normalizedRecipients t).

(** Lines 84-89: the document as saved when every send succeeded. *)
Definition completedTransfer (t : Transfer) (now : Z)
    (results : list Result.t) : Transfer :=
  let t' :=
    set_transactionIds results
      (set_executedAt now (set_status completed (set_status executing t))) in
  if (length (normalizedRecipients t) =? 1)%nat then
    match results with
    | first :: _ => set_transactionId (Result.transactionId first) t'
    | [] => t'
    end
  else t'.

(** Lines 96-102: the optional call of the expander, whose error is
    swallowed. *)
Definition expanded (env : Env) (parent : option Id) (w : World) : World :=
  match parent with
  | Some p => (generateNextInstance env p w).1
  | None => w
  end.

(** Lines 119-121: the document as the [catch] block saves it. *)
Definition failedTransfer (t : Transfer) (now : Z) (message : string)
  : Transfer :=
  set_errorMessage message (set_executedAt now (set_status failed t)).

(** The world the [catch] block leaves behind. *)
Definition handledWorld (env : Env) (id : Id) (message : string)
    (w : World) : World :=
  match findById_fault env (tick w) with
  | Some _ => loadedWorld id w
  | None =>
      match store w !! id with
      | None => loadedWorld id w
      | Some t =>
          let doc := failedTransfer t (clock env (S (tick w))) message in
          match save_fault env (S (tick w)) with
          | Some _ => logged (Save id doc) (loadedWorld id w)
          | None =>
              with_store (<[id := doc]> (store w))
                (logged (Save id doc) (loadedWorld id w))
          end
      end
  end.

Definition statusMessage (t : Transfer) : string :=
  "Transfer status is " +:+ statusString (status t) +:+ ", cannot execute".

Definition exceedsMessage (env : Env) (t : Transfer) (a : Auth.t) : string :=
  "Total transfer amount "
  +:+ numberToString env (totalAmount t (normalizedRecipients t))
  +:+ " exceeds authorized maximum "
  +:+ numberToString env (Auth.maxAmount a).

Definition someFailedMessage (t : Transfer) (results : list Result.t)
  : string :=
  "Some transfers failed: " +:+ pretty (failedCount results)
  +:+ "/" +:+ pretty (length (normalizedRecipients t)).

Section Paths.

Variable env : Env.
Variable id : Id.
Variable w : World.

(** The body found [t] in [scheduled] status. *)
Definition Loaded (t : Transfer) : Prop :=
  findById_fault env (tick w) = None
  ∧ store w !! id = Some t
  ∧ status t = scheduled.

(** ... and the authorization [a] is valid and covers the total. *)
Definition Authorized (t : Transfer) (a : Auth.t) : Prop :=
  Loaded t
  ∧ authorization_of env (S (tick w)) (userAddress t) = Returned a
  ∧ Auth.isValid a = true
  ∧ PrimFloat.ltb (Auth.maxAmount a)
      (totalAmount t (normalizedRecipients t)) = false.

(** ... and the [executing] status was saved, so the sends were made. *)
Definition Fanned (t : Transfer) (a : Auth.t) : Prop :=
  Authorized t a ∧ save_fault env (S (S (tick w))) = None.

(** Every way the body of the outer [try] can end. *)
Inductive BodyPath : World * Outcome ExecResult -> Prop :=
| load_fails m :
    findById_fault env (tick w) = Some m →
    BodyPath (loadedWorld id w, Raised m)
| not_found :
    findById_fault env (tick w) = None →
    store w !! id = None →
    BodyPath (loadedWorld id w, Raised "Scheduled transfer not found")
| wrong_status t :
    findById_fault env (tick w) = None →
    store w !! id = Some t →
    status t ≠ scheduled →
    BodyPath (loadedWorld id w, Raised (statusMessage t))
| check_throws t m :
    Loaded t →
    authorization_of env (S (tick w)) (userAddress t) = Raised m →
    BodyPath (checkedWorld id t w, Raised m)
| unauthorized t a :
    Loaded t →
    authorization_of env (S (tick w)) (userAddress t) = Returned a →
    Auth.isValid a = false →
    BodyPath (checkedWorld id t w,
              Raised "User authorization is invalid or expired")
| exceeds t a :
    Loaded t →
    authorization_of env (S (tick w)) (userAddress t) = Returned a →
    Auth.isValid a = true →
    PrimFloat.ltb (Auth.maxAmount a)
      (totalAmount t (normalizedRecipients t)) = true →
    BodyPath (checkedWorld id t w, Raised (exceedsMessage env t a))
| mark_fails t a m :
    Authorized t a →
    save_fault env (S (S (tick w))) = Some m →
    BodyPath (markAttempt id t w, Raised m)
| sends_failed t a :
    Fanned t a →
    forallb isCompleted (sendResults env t w) = false →
    BodyPath (sentWorld id t w,
              Raised (someFailedMessage t (sendResults env t w)))
| final_save_fails t a m :
    Fanned t a →
    forallb isCompleted (sendResults env t w) = true →
    save_fault env (tick (sentWorld id t w)) = Some m →
    BodyPath
      (logged
         (Save id (completedTransfer t (clock env (tick (sentWorld id t w)))
                     (sendResults env t w)))
         (sentWorld id t w),
       Raised m)
| all_sent t a :
    Fanned t a →
    forallb isCompleted (sendResults env t w) = true →
    save_fault env (tick (sentWorld id t w)) = None →
    let doc :=
      completedTransfer t (clock env (tick (sentWorld id t w)))
        (sendResults env t w) in
    BodyPath
      (expanded env (parentRecurringId t)
         (with_store (<[id := doc]> (store (sentWorld id t w)))
            (logged (Save id doc) (sentWorld id t w))),
       Returned (ExecSuccess doc (sendResults env t w))).

End Paths.

(** The calls made between two worlds. *)
Definition newEvents (w w' : World) : list Event :=
  drop (length (trace w)) (trace w').

(** The calls of the [catch] block. *)
Definition handlerEvents (env : Env) (id : Id) (message : string)
    (w : World) : list Event :=
  match findById_fault env (tick w) with
  | Some _ => [FindById id]
  | None =>
      match store w !! id with
      | None => [FindById id]
      | Some t =>
          [FindById id;
           Save id (failedTransfer t (clock env (S (tick w))) message)]
      end
  end.

(** The call of the expander, if any. *)
Definition expanderEvents (parent : option Id) : list Event :=
  match parent with
  | Some p => [GenerateNextInstance p]
  | None => []
  end.

(** Every send resolved with [success] set. *)
Definition SendsSucceed (env : Env) (t : Transfer) (w : World) : Prop :=
  ∀ i r,
    normalizedRecipients t !! i = Some r →
    ∃ result,
      chain_result env (S (S (S (tick w))) + i) (userAddress t) (address r)
        (recipientAmount t (normalizedRecipients t)) (retryLimit t)
      = Returned result
      ∧ Send.success result = true.

(** The ids of the documents a trace loads by id or saves, in order. *)
Definition touched (evs : list Event) : list Id :=
  omap (fun ev =>
          match ev with
          | FindById i | Save i _ => Some i
          | _ => None
          end) evs.

(** Executing the transfers of [todo] one after the other, in list
    order. *)
Definition runEach (env : Env) (todo : list (Id * Transfer)) (w : World)
  : World :=
  fold_left (fun w tr => (executeScheduledTransfer env tr.1 w).1) todo w.

Definition resultOf (out : World * Outcome ExecResult) : ExecResult :=
  match out.2 with
  | Returned r => r
  | Raised m => ExecFailure m
  end.

(** The entries that pass leaves in [results]. *)
Fixpoint entriesOf (env : Env) (todo : list (Id * Transfer)) (w : World)
  : list Entry.t :=
  match todo with
  | [] => []
  | tr :: rest =>
      {| Entry.transferId := tr.1;
         Entry.title := title tr.2;
         Entry.result := resultOf (executeScheduledTransfer env tr.1 w) |}
      :: entriesOf env rest (executeScheduledTransfer env tr.1 w).1
  end.

(** The ids of a summary's entries. *)
Definition summaryIds (out : Outcome Summary) : list Id :=
  match out with
  | Returned (Processed _ _ _ results) => map Entry.transferId results
  | _ => []
  end.

(** * The rest of the two services *)

(** ** Statistics: [getScheduledTransferStats] *)

(** The object of lines 189-196. *)
Module Stats.
Record t := {
  total : nat;
  scheduled : nat;
  executing : nat;
  completed : nat;
  failed : nat;
  cancelled : nat
}.
End Stats.

(** [userAddress ? { userAddress } : {}]: [None] is the empty query; a
    missing or empty address is falsy. *)
Definition statsQuery (userAddress : option string) : option string :=
  match userAddress with
  | Some u => if String.eqb u "" then None else Some u
  | None => None
  end.

Definition Matches (query : option string) (t : Transfer) : Prop :=
  match query with
  | Some u => userAddress t = u
  | None => True
  end.

#[global] Instance Matches_dec query t : Decision (Matches query t).
Proof. destruct query; unfold Matches; apply _. Defined.

(** The documents [ScheduledTransfer.find(query)] yields. *)
Definition matching (query : option string) (m : gmap Id Transfer)
  : list Transfer :=
  (filter (fun kt => Matches query kt.2) (map_to_list m)).*2.

(** [transfers.filter(t => t.status === s).length]. *)
Definition countStatus (s : Status) (transfers : list Transfer) : nat :=
  length (filter (fun t => status t = s) transfers).

(** Lines 202-207. *)
Definition statsOf (transfers : list Transfer) : Stats.t :=
  {| Stats.total := length transfers;
     Stats.scheduled := countStatus scheduled transfers;
     Stats.executing := countStatus executing transfers;
     Stats.completed := countStatus completed transfers;
     Stats.failed := countStatus failed transfers;
     Stats.cancelled := countStatus cancelled transfers |}.

(** A query outside the engine advances the clock; the trace keeps the
    engine's calls. *)
Definition ticked (w : World) : World :=
  {| store := store w; tick := S (tick w); trace := trace w |}.

(** Lines 188-210; the function has no [try], so a failing query throws to
    the caller. *)
Definition getScheduledTransferStats (env : Env)
    (userAddress : option string) : M Stats.t :=
  fun w =>
    match find_fault env (tick w) with
    | Some m => (ticked w, Raised m)
    | None =>
        (ticked w,
         Returned (statsOf (matching (statsQuery userAddress) (store w))))
    end.

(** ** The chain layer: [scheduledTransferFlowService.js] *)

Module Flow.

(** The variables of [process.env] the service reads. *)
Record ProcessEnv := {
  SERVICE_ACCOUNT_PRIVATE_KEY : option string;
  SERVICE_ACCOUNT_ADDRESS : option string;
  SKIP_BLOCKCHAIN_CHECKS : option string
}.

(** [!process.env.X]: unset, or set to the empty string. *)
Definition unset (v : option string) : bool :=
  match v with
  | None => true
  | Some s => String.eqb s ""
  end.

(** The dictionary [checkAuthorization] resolves to. *)
Record Authorization := {
  hasAuthorization : bool;
  isValid : bool;
  authId : option string;
  maxAmount : float;
  expiryDate : float;
  message : string
}.

(** What [fcl.tx(txId).onceSealed()] resolves to, as far as it is read. *)
Record Sealed := {
  status : Z;
  statusCode : Z;
  errorMessage : option string
}.

(** The object the chain-side [executeScheduledTransfer] resolves to. *)
Record Sent := {
  success : bool;
  transactionId : option string;
  sealed : option Sealed;
  sentStatus : string;
  sentMessage : option string;
  sentErrorMessage : option string;
  error : option string
}.

(** The calls made to the Flow client library. *)
Inductive Call :=
| Query (user : string)
| Mutate (user recipient : string) (value : float) (retries : Z)
| OnceSealed (txId : string).

(** What the client library and the clock answer during the engine's
    collaborator call number [n]. *)
Record Fcl := {
  query : nat -> string -> Outcome Authorization;
  mutate : nat -> string -> string -> float -> Z -> Outcome string;
  onceSealed : nat -> string -> Outcome Sealed;
  dateNow : nat -> Z
}.

(** A computation of the service: the calls it made, and how it ended. *)
Definition F (A : Type) : Type := list Call * Outcome A.

Definition pure {A} (a : A) : F A := ([], Returned a).

Definition call {A} (c : Call) (answer : Outcome A) : F A := ([c], answer).

Definition andThen {A B} (c : F A) (k : A -> F B) : F B :=
  match c with
  | (calls, Returned a) => (calls ++ (k a).1, (k a).2)
  | (calls, Raised m) => (calls, Raised m)
  end.

Definition catching {A} (body : F A) (handler : string -> F A) : F A :=
  match body with
  | (calls, Raised m) => (calls ++ (handler m).1, (handler m).2)
  | (calls, Returned a) => (calls, Returned a)
  end.

(** [Date.now()] as a number. *)
Definition timeNumber (ms : Z) : float :=
  PrimFloat.of_uint63 (Uint63.of_Z ms).

(** Line 232. *)
Definition isDevelopment (penv : ProcessEnv) : bool :=
  unset (SERVICE_ACCOUNT_PRIVATE_KEY penv)
  || bool_decide (SKIP_BLOCKCHAIN_CHECKS penv = Some "true").

(** Lines 236-243. *)
Definition developmentAuthorization (now : Z) : Authorization :=
  {| hasAuthorization := true;
     isValid := true;
     authId := Some "dev_auth";
     maxAmount := 999999;
     expiryDate :=
       PrimFloat.add (timeNumber now)
         (PrimFloat.mul
            (PrimFloat.mul
               (PrimFloat.mul (PrimFloat.mul 365 24) 60) 60) 1000);
     message := "Development mode - authorization bypassed" |}.

(** Lines 230-291. *)
Definition checkAuthorization (penv : ProcessEnv) (fcl : Fcl) (n : nat)
    (user : string) : F Authorization :=
  if isDevelopment penv then pure (developmentAuthorization (dateNow fcl n))
  else
    catching (call (Query user) (query fcl n user))
      (fun m => ([], Raised m)).

(** Line 309. *)
Definition simulated (penv : ProcessEnv) : bool :=
  unset (SERVICE_ACCOUNT_PRIVATE_KEY penv)
  || unset (SERVICE_ACCOUNT_ADDRESS penv).

(** Lines 297-445; [retryLimit = 3] is the parameter's default, and the
    amount reaches the transaction as [amount.toFixed(8)]. *)
Definition executeScheduledTransfer (penv : ProcessEnv) (fcl : Fcl)
    (n : nat) (user recipient : string) (value : float)
    (retryLimit : option Z) : F Sent :=
  let retries := match retryLimit with Some r => r | None => 3 end in
  catching
    (if simulated penv then
       pure {| success := true;
               transactionId := Some ("dev_tx_" +:+ pretty (dateNow fcl n));
               sealed := None;
               sentStatus := "SEALED";
               sentMessage := Some "Development mode - transaction simulated";
               sentErrorMessage := None;
               error := None |}
     else
       andThen
         (call (Mutate user recipient value retries)
            (mutate fcl n user recipient value retries))
         (fun txId =>
            andThen (call (OnceSealed txId) (onceSealed fcl n txId))
              (fun s =>
                 let isSuccess :=
                   (status s =? 4) && (statusCode s =? 0) in
                 pure {| success := isSuccess;
                         transactionId := Some txId;
                         sealed := Some s;
                         sentStatus :=
                           if isSuccess then "SEALED" else "FAILED";
                         sentMessage := None;
                         sentErrorMessage := errorMessage s;
                         error := None |})))
    (fun m =>
       pure {| success := false;
               transactionId := None;
               sealed := None;
               sentStatus := "FAILED";
               sentMessage := None;
               sentErrorMessage := None;
               error := Some m |}).

End Flow.

(** What the engine reads of the two answers. *)
Definition authRead (a : Flow.Authorization) : Auth.t :=
  {| Auth.isValid := Flow.isValid a; Auth.maxAmount := Flow.maxAmount a |}.

Definition sendRead (r : Flow.Sent) : Send.t :=
  {| Send.success := Flow.success r;
     Send.transactionId := Flow.transactionId r;
     Send.error := Flow.error r |}.

Definition outcomeMap {A B} (f : A -> B) (o : Outcome A) : Outcome B :=
  match o with
  | Raised m => Raised m
  | Returned a => Returned (f a)
  end.

(** The engine's environment when its two chain collaborators are the
    functions of the chain layer; the database, the expander, the clock and
    the number printer stay those of [base]. *)
Definition wired (penv : Flow.ProcessEnv) (fcl : Flow.Fcl) (base : Env)
  : Env :=
  {| findById_fault := findById_fault base;
     save_fault := save_fault base;
     find_fault := find_fault base;
     authorization_of := fun n user =>
       outcomeMap authRead (Flow.checkAuthorization penv fcl n user).2;
     chain_result := fun n user to value retries =>
       outcomeMap sendRead
         (Flow.executeScheduledTransfer penv fcl n user to value
            (Some retries)).2;
     next_instance := next_instance base;
     clock := clock base;
     numberToString := numberToString base |}.

(** The entries of a summary. *)
Definition summaryResults (out : Outcome Summary) : list Entry.t :=
  match out with
  | Returned (Processed _ _ _ results) => results
  | _ => []
  end.

(** ** More sample data *)

Module Cases.

(** A transfer from before recipient lists: only the legacy fields. *)
Definition legacy : Transfer :=
  {| userAddress := "0xuser"; title := "gift";
     recipient := "0xold"; recipients := Some [];
     amount := 7; amountPerRecipient := false;
     scheduledDate := 10; retryLimit := 3;
     status := scheduled; executedAt := None;
     transactionIds := []; transactionId := None;
     errorMessage := None; parentRecurringId := None |}.

(** A deployment with a service account that sets
    [SKIP_BLOCKCHAIN_CHECKS=true]. *)
Definition skipping : Flow.ProcessEnv :=
  {| Flow.SERVICE_ACCOUNT_PRIVATE_KEY := Some "a1b2";
     Flow.SERVICE_ACCOUNT_ADDRESS := Some "0x8401ed4fc6788c8a";
     Flow.SKIP_BLOCKCHAIN_CHECKS := Some "true" |}.

(** A deployment with a service account and live checks. *)
Definition live : Flow.ProcessEnv :=
  {| Flow.SERVICE_ACCOUNT_PRIVATE_KEY := Some "a1b2";
     Flow.SERVICE_ACCOUNT_ADDRESS := Some "0x8401ed4fc6788c8a";
     Flow.SKIP_BLOCKCHAIN_CHECKS := None |}.

(** A developer's machine: no service account. *)
Definition development : Flow.ProcessEnv :=
  {| Flow.SERVICE_ACCOUNT_PRIVATE_KEY := None;
     Flow.SERVICE_ACCOUNT_ADDRESS := None;
     Flow.SKIP_BLOCKCHAIN_CHECKS := None |}.

(** A chain on which every transaction is submitted as [tx1] and sealed
    with status code 1 and an error message. *)
Definition reverting : Flow.Fcl :=
  {| Flow.query := fun _ _ => Raised "no access node";
     Flow.mutate := fun _ _ _ _ _ => Returned "tx1";
     Flow.onceSealed := fun _ _ =>
       Returned {| Flow.status := 4; Flow.statusCode := 1;
                   Flow.errorMessage := Some "vault balance too low" |};
     Flow.dateNow := fun n => 1700000000000 + Z.of_nat n |}.

End Cases.

(** * Proofs *)

(** ** The pass over the recipients, as a function *)

Lemma sendRecords_length env transfer rs n todo :
  length (sendRecords env transfer rs n todo) = length todo.
Proof.
  revert n. induction todo as [|r rest IH]; intros n; simpl; [done|].
  by rewrite IH.
Qed.

Lemma sendRecords_recipients env transfer rs n todo :
  map Result.recipient (sendRecords env transfer rs n todo)
  = map address todo.
Proof.
  revert n. induction todo as [|r rest IH]; intros n; simpl; [done|].
  rewrite IH. f_equal. unfold sendRecord.
  by destruct (chain_result _ _ _ _ _ _).
Qed.

Lemma sendRecords_lookup env transfer rs n todo i r :
  todo !! i = Some r →
  sendRecords env transfer rs n todo !! i
  = Some (sendRecord env transfer rs (n + i) r).
Proof.
  revert n i. induction todo as [|r0 rest IH]; intros n i Hi; [done|].
  destruct i as [|i]; simpl in *.
  - injection Hi as ->. by rewrite Nat.add_0_r.
  - rewrite (IH (S n) i Hi). do 2 f_equal. lia.
Qed.

(** A record is [completed] exactly when the send resolved with
    [success] set. *)
Lemma sendRecord_completed env transfer rs n r :
  Result.status (sendRecord env transfer rs n r) = completed
  ↔ ∃ result,
      chain_result env n (userAddress transfer) (address r)
        (recipientAmount transfer rs) (retryLimit transfer)
      = Returned result
      ∧ Send.success result = true.
Proof.
  unfold sendRecord.
  destruct (chain_result _ _ _ _ _ _) as [m|result]; simpl.
  - split; [done|]. by intros (? & ? & _).
  - destruct (Send.success result) eqn:E; split; try done.
    + intros _. by exists result.
    + intros (x & Hx & Hs). injection Hx as <-. congruence.
Qed.

(** The loop never throws, leaves the store alone, makes one call per
    recipient and appends one record per recipient. *)
Lemma fanOut_run env transfer rs todo results ok w :
  fanOut env transfer rs todo results ok w
  = (afterSends transfer rs todo w,
     Returned
       (results ++ sendRecords env transfer rs (tick w) todo,
        ok && forallb isCompleted
                (sendRecords env transfer rs (tick w) todo))).
Proof.
  revert results ok w.
  induction todo as [|r rest IH]; intros results ok w.
  - simpl. unfold ret, afterSends. rewrite app_nil_r, andb_true_r.
    destruct w; simpl. by rewrite Nat.add_0_r, app_nil_r.
  - cbn [fanOut]. unfold bind at 1, tryCatch, bind at 1, executeOnChain.
    cbn [sendRecords]. unfold sendRecord.
    assert (Hw : afterSends transfer rs rest
                   (logged (sendEvent transfer rs r) w)
                 = afterSends transfer rs (r :: rest) w).
    { unfold afterSends. cbn [store tick trace logged length map].
      rewrite <- app_assoc. f_equal. lia. }
    fold (sendEvent transfer rs r).
    destruct (chain_result env (tick w) _ _ _ _) as [m|result];
      unfold ret; rewrite IH; cbn [fst snd tick logged];
      rewrite Hw, <- app_assoc; cbn [app forallb]; do 3 f_equal.
    + by rewrite andb_false_r.
    + unfold isCompleted at 1, sentRecord. cbn [Result.status].
      by destruct (Send.success result), ok.
Qed.

(** ** The paths through [executeScheduledTransfer] *)

Ltac run :=
  cbv beta iota delta
    [bind ret throw tryCatch findById save checkAuthorization newDate fst snd].

Lemma completedTransfer_parent t now results :
  parentRecurringId (completedTransfer t now results) = parentRecurringId t.
Proof.
  unfold completedTransfer.
  destruct (length (normalizedRecipients t) =? 1)%nat; [|done].
  by destruct results.
Qed.

Lemma completedTransfer_status t now results :
  status (completedTransfer t now results) = completed.
Proof.
  unfold completedTransfer.
  destruct (length (normalizedRecipients t) =? 1)%nat; [|done].
  by destruct results.
Qed.

Lemma sendResults_length env t w :
  length (sendResults env t w) = length (normalizedRecipients t).
Proof. apply sendRecords_length. Qed.

(** The body always ends along one of the paths. *)
Lemma executeBody_path env id w : BodyPath env id w (executeBody env id w).
Proof.
  unfold executeBody. run.
  destruct (findById_fault env (tick w)) as [m|] eqn:Hload.
  { by apply load_fails. }
  destruct (store w !! id) as [t|] eqn:Hfound.
  2:{ by apply not_found. }
  destruct (bool_decide (status t = scheduled)) eqn:Hst; cbn [negb]; run.
  2:{ apply bool_decide_eq_false in Hst. by apply wrong_status. }
  apply bool_decide_eq_true in Hst.
  assert (HL : Loaded env id w t) by done.
  cbn [tick logged].
  destruct (authorization_of env (S (tick w)) (userAddress t))
    as [m|a] eqn:Hauth.
  { by apply check_throws. }
  destruct (Auth.isValid a) eqn:Hvalid; cbn [negb]; run.
  2:{ by eapply unauthorized. }
  destruct (PrimFloat.ltb _ _) eqn:Hlt; run.
  { by eapply exceeds. }
  assert (HA : Authorized env id w t a) by done.
  cbn [tick logged].
  destruct (save_fault env (S (S (tick w)))) as [m|] eqn:Hmark.
  { by eapply mark_fails. }
  assert (HF : Fanned env id w t a) by done.
  match goal with
  | |- context [fanOut _ _ _ _ _ _ ?x] =>
      change x with (executingWorld id t w)
  end.
  rewrite fanOut_run. cbn [app andb].
  change (tick (executingWorld id t w)) with (S (S (S (tick w)))).
  fold (sendResults env t w) (sentWorld id t w).
  destruct (forallb isCompleted (sendResults env t w)) eqn:Hall; run.
  2:{ by eapply sends_failed. }
  pose proof (sendResults_length env t w) as Hlen.
  match goal with
  | |- BodyPath _ _ _ (let (_, _) := ?c in _) =>
      assert (Hdoc :
        c = (sentWorld id t w,
             Returned
               (completedTransfer t (clock env (tick (sentWorld id t w)))
                  (sendResults env t w))))
  end.
  { unfold completedTransfer.
    destruct (length (normalizedRecipients t) =? 1)%nat eqn:E; [|done].
    apply Nat.eqb_eq in E. rewrite <- Hlen in E.
    by destruct (sendResults env t w). }
  rewrite Hdoc.
  destruct (save_fault env (tick (sentWorld id t w))) as [m|] eqn:Hsave.
  { by eapply final_save_fails. }
  rewrite completedTransfer_parent.
  pose proof (all_sent env id w t a HF Hall Hsave) as P. cbv zeta in P.
  unfold expanded in P.
  destruct (parentRecurringId t) as [p|]; [|exact P].
  destruct (generateNextInstance env p _) as [w' [m|[]]]; exact P.
Qed.

(** The [catch] block never throws and always yields the failure
    object. *)
Lemma executeHandler_run env id message w :
  executeHandler env id message w
  = (handledWorld env id message w, Returned (ExecFailure message)).
Proof.
  unfold executeHandler, handledWorld. run.
  destruct (findById_fault env (tick w)); [done|].
  destruct (store w !! id); [|done].
  cbn [tick logged]. unfold failedTransfer, loadedWorld.
  by destruct (save_fault env (S (tick w))).
Qed.

(** The whole function in terms of its [try] body. *)
Lemma executeScheduledTransfer_run env id w :
  executeScheduledTransfer env id w
  = match executeBody env id w with
    | (w', Raised m) => (handledWorld env id m w', Returned (ExecFailure m))
    | (w', Returned r) => (w', Returned r)
    end.
Proof.
  unfold executeScheduledTransfer, tryCatch.
  destruct (executeBody env id w) as [w' [m|r]]; [|done].
  apply executeHandler_run.
Qed.

(** Which path the body takes is decided by its preconditions. *)
Ltac path_facts :=
  unfold Fanned, Authorized, Loaded in *;
  repeat match goal with H : _ ∧ _ |- _ => destruct H end.

Ltac decide_path env id w :=
  intros; path_facts;
  destruct (executeBody_path env id w);
  path_facts; simplify_eq; try done; try congruence.

Section Decided.

Variable env : Env.
Variable id : Id.
Variable w : World.

Lemma body_load_fails m :
  findById_fault env (tick w) = Some m →
  executeBody env id w = (loadedWorld id w, Raised m).
Proof. decide_path env id w. Qed.

Lemma body_not_found :
  findById_fault env (tick w) = None →
  store w !! id = None →
  executeBody env id w
  = (loadedWorld id w, Raised "Scheduled transfer not found").
Proof. decide_path env id w. Qed.

Lemma body_wrong_status t :
  findById_fault env (tick w) = None →
  store w !! id = Some t →
  status t ≠ scheduled →
  executeBody env id w = (loadedWorld id w, Raised (statusMessage t)).
Proof. decide_path env id w. Qed.

Lemma body_check_throws t m :
  Loaded env id w t →
  authorization_of env (S (tick w)) (userAddress t) = Raised m →
  executeBody env id w = (checkedWorld id t w, Raised m).
Proof. decide_path env id w. Qed.

Lemma body_unauthorized t a :
  Loaded env id w t →
  authorization_of env (S (tick w)) (userAddress t) = Returned a →
  Auth.isValid a = false →
  executeBody env id w
  = (checkedWorld id t w, Raised "User authorization is invalid or expired").
Proof. decide_path env id w. Qed.

Lemma body_exceeds t a :
  Loaded env id w t →
  authorization_of env (S (tick w)) (userAddress t) = Returned a →
  Auth.isValid a = true →
  PrimFloat.ltb (Auth.maxAmount a)
    (totalAmount t (normalizedRecipients t)) = true →
  executeBody env id w
  = (checkedWorld id t w, Raised (exceedsMessage env t a)).
Proof. decide_path env id w. Qed.

Lemma body_mark_fails t a m :
  Authorized env id w t a →
  save_fault env (S (S (tick w))) = Some m →
  executeBody env id w = (markAttempt id t w, Raised m).
Proof. decide_path env id w. Qed.

Lemma body_sends_failed t a :
  Fanned env id w t a →
  forallb isCompleted (sendResults env t w) = false →
  executeBody env id w
  = (sentWorld id t w, Raised (someFailedMessage t (sendResults env t w))).
Proof. decide_path env id w. Qed.

Lemma body_final_save_fails t a m :
  Fanned env id w t a →
  forallb isCompleted (sendResults env t w) = true →
  save_fault env (tick (sentWorld id t w)) = Some m →
  executeBody env id w
  = (logged
       (Save id (completedTransfer t (clock env (tick (sentWorld id t w)))
                   (sendResults env t w)))
       (sentWorld id t w),
     Raised m).
Proof. decide_path env id w. Qed.

Lemma body_all_sent t a :
  Fanned env id w t a →
  forallb isCompleted (sendResults env t w) = true →
  save_fault env (tick (sentWorld id t w)) = None →
  executeBody env id w
  = (expanded env (parentRecurringId t)
       (with_store
          (<[id := completedTransfer t (clock env (tick (sentWorld id t w)))
                     (sendResults env t w)]>
             (store (sentWorld id t w)))
          (logged
             (Save id
                (completedTransfer t (clock env (tick (sentWorld id t w)))
                   (sendResults env t w)))
             (sentWorld id t w))),
     Returned
       (ExecSuccess
          (completedTransfer t (clock env (tick (sentWorld id t w)))
             (sendResults env t w))
          (sendResults env t w))).
Proof. decide_path env id w. Qed.

End Decided.

(** ** What each world holds *)

Lemma newEvents_app w w' evs :
  trace w' = trace w ++ evs → newEvents w w' = evs.
Proof. intros H. unfold newEvents. by rewrite H, drop_app_length. Qed.

Lemma trace_loaded id w : trace (loadedWorld id w) = trace w ++ [FindById id].
Proof. done. Qed.

Lemma trace_checked id t w :
  trace (checkedWorld id t w)
  = trace w ++ [FindById id; CheckAuthorization (userAddress t)].
Proof.
  unfold checkedWorld, loadedWorld. cbn [trace logged].
  by rewrite <- app_assoc.
Qed.

Lemma trace_markAttempt id t w :
  trace (markAttempt id t w)
  = trace w ++ [FindById id; CheckAuthorization (userAddress t);
                Save id (set_status executing t)].
Proof.
  unfold markAttempt. cbn [trace logged]. rewrite trace_checked.
  by rewrite <- app_assoc.
Qed.

Lemma trace_sent id t w :
  trace (sentWorld id t w)
  = trace w ++ [FindById id; CheckAuthorization (userAddress t);
                Save id (set_status executing t)]
      ++ map (sendEvent (set_status executing t) (normalizedRecipients t))
           (normalizedRecipients t).
Proof.
  unfold sentWorld, afterSends, executingWorld. cbn [trace with_store].
  rewrite trace_markAttempt. by rewrite <- app_assoc.
Qed.

Lemma store_sent id t w :
  store (sentWorld id t w) = <[id := set_status executing t]> (store w).
Proof. done. Qed.

Lemma trace_handled env id message w :
  trace (handledWorld env id message w)
  = trace w ++ handlerEvents env id message w.
Proof.
  unfold handledWorld, handlerEvents.
  destruct (findById_fault env (tick w)); [done|].
  destruct (store w !! id); [|done].
  destruct (save_fault env (S (tick w)));
    cbn [trace logged with_store loadedWorld]; by rewrite <- app_assoc.
Qed.

(** The [catch] block writes to no other document. *)
Lemma handled_lookup_ne env id message w k :
  k ≠ id → store (handledWorld env id message w) !! k = store w !! k.
Proof.
  intros Hk. unfold handledWorld.
  destruct (findById_fault env (tick w)); [done|].
  destruct (store w !! id); [|done].
  destruct (save_fault env (S (tick w))); [done|].
  cbn [store with_store]. by rewrite lookup_insert_ne.
Qed.

Lemma trace_expanded env parent w :
  trace (expanded env parent w) = trace w ++ expanderEvents parent.
Proof.
  unfold expanded, expanderEvents, generateNextInstance.
  destruct parent as [p|]; [|by rewrite app_nil_r].
  by destruct (next_instance env (tick w) p).
Qed.

(** The expander adds a document; those already stored stay as they
    are. *)
Lemma expanded_lookup env parent w k x :
  store w !! k = Some x → store (expanded env parent w) !! k = Some x.
Proof.
  intros Hk. unfold expanded, generateNextInstance.
  destruct parent as [p|]; [|done].
  destruct (next_instance env (tick w) p); [done|].
  cbn [fst store with_store]. rewrite lookup_insert_ne; [done|].
  intros E. pose proof (is_fresh (dom (store w))) as Hf.
  rewrite E in Hf. apply Hf, elem_of_dom. by exists x.
Qed.

Lemma generateCalls_app l l' :
  generateCalls (l ++ l') = generateCalls l ++ generateCalls l'.
Proof. apply omap_app. Qed.

Lemma sendCalls_app l l' : sendCalls (l ++ l') = sendCalls l ++ sendCalls l'.
Proof. apply List.filter_app. Qed.

Lemma generateCalls_sends transfer rs todo :
  generateCalls (map (sendEvent transfer rs) todo) = [].
Proof. induction todo; [done|]. cbn. apply IHtodo. Qed.

Lemma sendCalls_sends transfer rs todo :
  sendCalls (map (sendEvent transfer rs) todo)
  = map (sendEvent transfer rs) todo.
Proof.
  induction todo as [|r rest IH]; [done|].
  unfold sendCalls in *. cbn [map List.filter].
  unfold sendEvent at 1. cbn [isSend]. by rewrite IH.
Qed.

Lemma generateCalls_handler env id message w :
  generateCalls (handlerEvents env id message w) = [].
Proof.
  unfold handlerEvents.
  destruct (findById_fault env (tick w)); [done|].
  by destruct (store w !! id).
Qed.

Lemma sendCalls_handler env id message w :
  sendCalls (handlerEvents env id message w) = [].
Proof.
  unfold handlerEvents.
  destruct (findById_fault env (tick w)); [done|].
  by destruct (store w !! id).
Qed.

Lemma sendCalls_expander parent : sendCalls (expanderEvents parent) = [].
Proof. by destruct parent. Qed.

Lemma generateCalls_expander parent :
  generateCalls (expanderEvents parent)
  = match parent with Some p => [p] | None => [] end.
Proof. by destruct parent. Qed.

Lemma sends_succeed_completed env t w :
  SendsSucceed env t w ↔ forallb isCompleted (sendResults env t w) = true.
Proof.
  unfold sendResults.
  set (t' := set_status executing t). set (rs := normalizedRecipients t).
  rewrite forallb_forall. split.
  - intros Hs rec Hin. apply list_elem_of_In, list_elem_of_lookup in Hin.
    destruct Hin as [i Hi].
    assert (is_Some (rs !! i)) as [r Hr].
    { apply lookup_lt_is_Some. apply lookup_lt_Some in Hi.
      by rewrite sendRecords_length in Hi. }
    rewrite (sendRecords_lookup _ _ _ _ _ _ _ Hr) in Hi.
    injection Hi as <-. apply bool_decide_eq_true.
    apply sendRecord_completed. exact (Hs i r Hr).
  - intros Hall i r Hr.
    apply (sendRecord_completed env t' rs).
    apply (bool_decide_eq_true_1 _). apply Hall.
    apply list_elem_of_In, list_elem_of_lookup. exists i.
    by apply sendRecords_lookup.
Qed.

(** ** An amount over the authorized maximum *)

(** C1, as stated, fails: ten to each of two recipients under an
    authorization of fifteen makes no send, but the stored transfer ends up
    [failed], not [scheduled]. *)
Lemma exceeding_transfer_ends_failed :
  status Sample.overLimit = scheduled
  ∧ authorization_of (Sample.calm 15) 1 (userAddress Sample.overLimit)
    = Returned {| Auth.isValid := true; Auth.maxAmount := 15 |}
  ∧ totalAmount Sample.overLimit (normalizedRecipients Sample.overLimit)
    = 20%float
  ∧ PrimFloat.ltb 15 20 = true
  ∧ sendCalls
      (trace (executeScheduledTransfer (Sample.calm 15) 1%N
                (Sample.world {[1%N := Sample.overLimit]})).1) = []
  ∧ status <$>
      store (executeScheduledTransfer (Sample.calm 15) 1%N
               (Sample.world {[1%N := Sample.overLimit]})).1 !! 1%N
    = Some failed
  ∧ status <$>
      store (executeScheduledTransfer (Sample.calm 15) 1%N
               (Sample.world {[1%N := Sample.overLimit]})).1 !! 1%N
    ≠ Some scheduled.
Proof. vm_compute. repeat split; congruence. Qed.

(** C1, amended: for a transfer in status [scheduled] whose authorization
    is valid but whose total exceeds the authorized maximum, no send is
    attempted and the call returns the failure object carrying the
    "exceeds authorized maximum" message; the [catch] block then reloads the
    transfer and saves it as [failed] with [executedAt] and [errorMessage]
    set, and the store is left as it was only when that reload or save
    itself throws. *)
Theorem exceeding_authorization_fails_transfer env id w t a :
  Loaded env id w t →
  authorization_of env (S (tick w)) (userAddress t) = Returned a →
  Auth.isValid a = true →
  PrimFloat.ltb (Auth.maxAmount a)
    (totalAmount t (normalizedRecipients t)) = true →
  (executeScheduledTransfer env id w).2
  = Returned (ExecFailure (exceedsMessage env t a))
  ∧ sendCalls (newEvents w (executeScheduledTransfer env id w).1) = []
  ∧ store (executeScheduledTransfer env id w).1
    = match findById_fault env (S (S (tick w))),
            save_fault env (S (S (S (tick w)))) with
      | None, None =>
          <[id := failedTransfer t (clock env (S (S (S (tick w)))))
                    (exceedsMessage env t a)]> (store w)
      | _, _ => store w
      end
  ∧ status (failedTransfer t (clock env (S (S (S (tick w)))))
              (exceedsMessage env t a)) = failed
  ∧ errorMessage (failedTransfer t (clock env (S (S (S (tick w)))))
                    (exceedsMessage env t a))
    = Some (exceedsMessage env t a).
Proof.
  intros HL Hauth Hvalid Hlt.
  rewrite executeScheduledTransfer_run,
    (body_exceeds env id w t a HL Hauth Hvalid Hlt).
  cbn [fst snd]. split; [done|]. split; [|split; [|done]].
  - rewrite (newEvents_app w _
               ([FindById id; CheckAuthorization (userAddress t)]
                ++ handlerEvents env id (exceedsMessage env t a)
                     (checkedWorld id t w))).
    + rewrite sendCalls_app, sendCalls_handler. done.
    + rewrite trace_handled, trace_checked. by rewrite <- app_assoc.
  - destruct HL as (_ & Hfound & _).
    unfold handledWorld.
    change (tick (checkedWorld id t w)) with (S (S (tick w))).
    change (store (checkedWorld id t w)) with (store w).
    rewrite Hfound.
    destruct (findById_fault env (S (S (tick w)))); [done|].
    by destruct (save_fault env (S (S (S (tick w))))).
Qed.

(** The scenario of ten to each of two recipients under an authorization
    of fifteen. *)
Lemma exceeding_authorization_fails_transfer_witness :
  (executeScheduledTransfer (Sample.calm 15) 1%N
     (Sample.world {[1%N := Sample.overLimit]})).2
  = Returned
      (ExecFailure
         (exceedsMessage (Sample.calm 15) Sample.overLimit
            {| Auth.isValid := true; Auth.maxAmount := 15 |}))
  ∧ sendCalls
      (newEvents (Sample.world {[1%N := Sample.overLimit]})
         (executeScheduledTransfer (Sample.calm 15) 1%N
            (Sample.world {[1%N := Sample.overLimit]})).1) = [].
Proof.
  pose proof (exceeding_authorization_fails_transfer (Sample.calm 15) 1%N
                (Sample.world {[1%N := Sample.overLimit]}) Sample.overLimit
                {| Auth.isValid := true; Auth.maxAmount := 15 |}) as H.
  destruct H as (H1 & H2 & _).
  - repeat split; vm_compute; reflexivity.
  - reflexivity.
  - reflexivity.
  - vm_compute; reflexivity.
  - split; [exact H1 | exact H2].
Defined.

(** ** A transfer that is not [scheduled] *)

(** The guard of lines 18-20 throws into the [catch] block of the same
    function, which reloads the document and saves it as [failed]. *)
Lemma wrong_status_overwritten env id w t :
  storeWorks env →
  store w !! id = Some t →
  status t ≠ scheduled →
  (executeScheduledTransfer env id w).2
  = Returned (ExecFailure (statusMessage t))
  ∧ store (executeScheduledTransfer env id w).1
    = <[id := failedTransfer t (clock env (S (S (tick w)))) (statusMessage t)]>
        (store w).
Proof.
  intros Hs Hfound Hst.
  rewrite executeScheduledTransfer_run,
    (body_wrong_status env id w t (proj1 (Hs _)) Hfound Hst).
  cbn [fst snd]. split; [done|].
  unfold handledWorld.
  change (tick (loadedWorld id w)) with (S (tick w)).
  change (store (loadedWorld id w)) with (store w).
  by rewrite (proj1 (Hs _)), Hfound, (proj2 (Hs _)).
Qed.

(** C2: executing a transfer that is already [completed] returns the
    "cannot execute" error, and yet the call saves the document: the
    stored transfer is [failed] afterwards, with [executedAt] and
    [errorMessage] overwritten. *)
Theorem completed_transfer_overwritten :
  (executeScheduledTransfer (Sample.calm 100) 1%N
     (Sample.world {[1%N := Sample.alreadyDone]})).2
  = Returned (ExecFailure "Transfer status is completed, cannot execute")
  ∧ newEvents (Sample.world {[1%N := Sample.alreadyDone]})
      (executeScheduledTransfer (Sample.calm 100) 1%N
         (Sample.world {[1%N := Sample.alreadyDone]})).1
    = [FindById 1%N; FindById 1%N;
       Save 1%N
         (failedTransfer Sample.alreadyDone 502
            "Transfer status is completed, cannot execute")]
  ∧ store (executeScheduledTransfer (Sample.calm 100) 1%N
             (Sample.world {[1%N := Sample.alreadyDone]})).1 !! 1%N
    = Some (failedTransfer Sample.alreadyDone 502
              "Transfer status is completed, cannot execute")
  ∧ status Sample.alreadyDone = completed
  ∧ status (failedTransfer Sample.alreadyDone 502
              "Transfer status is completed, cannot execute") = failed.
Proof. vm_compute. repeat split. Qed.

(** ** A send that fails *)

(** C3: twenty split over [A] and [B], where the send to [A] is sealed as
    [tx_A] and the send to [B] comes back unsuccessful.  The stored
    transfer ends up [failed], but its [transactionIds] is still the empty
    list it was before and [transactionId] is unset: the id [tx_A] of the
    send that went through is not persisted. *)
Theorem partial_failure_drops_results :
  sendResults (Sample.rejecting 100 "B") Sample.twoWay
    (Sample.world {[1%N := Sample.twoWay]})
  = [ {| Result.recipient := "A"; Result.transactionId := Some "tx_A";
         Result.status := completed; Result.error := None |};
      {| Result.recipient := "B"; Result.transactionId := None;
         Result.status := failed;
         Result.error := Some "sealed with an error" |} ]
  ∧ (executeScheduledTransfer (Sample.rejecting 100 "B") 1%N
       (Sample.world {[1%N := Sample.twoWay]})).2
    = Returned (ExecFailure "Some transfers failed: 1/2")
  ∧ sendCalls
      (newEvents (Sample.world {[1%N := Sample.twoWay]})
         (executeScheduledTransfer (Sample.rejecting 100 "B") 1%N
            (Sample.world {[1%N := Sample.twoWay]})).1)
    = [ExecuteOnChain "0xuser" "A" 10 3; ExecuteOnChain "0xuser" "B" 10 3]
  ∧ store (executeScheduledTransfer (Sample.rejecting 100 "B") 1%N
             (Sample.world {[1%N := Sample.twoWay]})).1 !! 1%N
    = Some (failedTransfer (set_status executing Sample.twoWay) 506
              "Some transfers failed: 1/2")
  ∧ transactionIds
      (failedTransfer (set_status executing Sample.twoWay) 506
         "Some transfers failed: 1/2") = []
  ∧ transactionId
      (failedTransfer (set_status executing Sample.twoWay) 506
         "Some transfers failed: 1/2") = None.
Proof. vm_compute. repeat split. Qed.

(** Whenever some send fails, what is saved is the reloaded document with
    [status], [executedAt] and [errorMessage] set: its [transactionIds] is
    the list the transfer had before the execution. *)
Lemma failed_send_keeps_old_results env id w t a :
  storeWorks env →
  Authorized env id w t a →
  forallb isCompleted (sendResults env t w) = false →
  (executeScheduledTransfer env id w).2
  = Returned (ExecFailure (someFailedMessage t (sendResults env t w)))
  ∧ ∃ doc,
      store (executeScheduledTransfer env id w).1 !! id = Some doc
      ∧ status doc = failed
      ∧ transactionIds doc = transactionIds t
      ∧ transactionId doc = transactionId t.
Proof.
  intros Hs HA Hall.
  assert (HF : Fanned env id w t a) by (split; [done | apply Hs]).
  rewrite executeScheduledTransfer_run, (body_sends_failed env id w t a HF Hall).
  cbn [fst snd]. split; [done|].
  unfold handledWorld. rewrite store_sent, lookup_insert_eq.
  rewrite (proj1 (Hs _)), (proj2 (Hs _)).
  cbn [store with_store]. rewrite lookup_insert_eq. by eexists.
Qed.

(** ** Every send succeeds *)

(** C4: when the database works and every send of a [scheduled],
    authorized transfer resolves with [success] set, the call returns the
    success object, and the stored transfer is [completed], has
    [executedAt] set, holds one result record per (normalized) recipient
    in [transactionIds], and, when there is exactly one recipient, has the
    first record's transaction id in [transactionId]. *)
Theorem all_sends_succeed_completes env id w t a :
  storeWorks env →
  store w !! id = Some t →
  status t = scheduled →
  authorization_of env (S (tick w)) (userAddress t) = Returned a →
  Auth.isValid a = true →
  PrimFloat.ltb (Auth.maxAmount a)
    (totalAmount t (normalizedRecipients t)) = false →
  SendsSucceed env t w →
  ∃ doc,
    (executeScheduledTransfer env id w).2
    = Returned (ExecSuccess doc (sendResults env t w))
    ∧ store (executeScheduledTransfer env id w).1 !! id = Some doc
    ∧ status doc = completed
    ∧ executedAt doc
      = Some (clock env (S (S (S (tick w)))
                         + length (normalizedRecipients t))%nat)
    ∧ transactionIds doc = sendResults env t w
    ∧ length (transactionIds doc) = length (normalizedRecipients t)
    ∧ (length (normalizedRecipients t) = 1%nat →
       ∃ first,
         head (transactionIds doc) = Some first
         ∧ transactionId doc = Result.transactionId first).
Proof.
  intros Hs Hfound Hst Hauth Hvalid Hlt Hsends.
  assert (HF : Fanned env id w t a).
  { repeat split; try done; apply Hs. }
  apply sends_succeed_completed in Hsends.
  rewrite executeScheduledTransfer_run,
    (body_all_sent env id w t a HF Hsends (proj2 (Hs _))).
  cbn [fst snd]. eexists. split; [done|].
  pose proof (sendResults_length env t w) as Hlen.
  split; [|split; [|split; [|split; [|split]]]].
  - apply expanded_lookup. cbn [store with_store]. apply lookup_insert_eq.
  - apply completedTransfer_status.
  - unfold completedTransfer.
    destruct (length (normalizedRecipients t) =? 1)%nat; [|done].
    by destruct (sendResults env t w).
  - unfold completedTransfer.
    destruct (length (normalizedRecipients t) =? 1)%nat; [|done].
    by destruct (sendResults env t w).
  - unfold completedTransfer.
    destruct (length (normalizedRecipients t) =? 1)%nat;
      [destruct (sendResults env t w)|]; done.
  - intros Hone. unfold completedTransfer.
    rewrite Hone in *. cbn [Nat.eqb].
    destruct (sendResults env t w) as [|first rest]; [done|].
    by exists first.
Qed.

(** A single recipient: the legacy [transactionId] is that of the only
    send. *)
Lemma all_sends_succeed_completes_witness :
  ∃ doc,
    (executeScheduledTransfer (Sample.calm 100) 1%N
       (Sample.world {[1%N := Sample.recurring]})).2
    = Returned
        (ExecSuccess doc
           (sendResults (Sample.calm 100) Sample.recurring
              (Sample.world {[1%N := Sample.recurring]})))
    ∧ store (executeScheduledTransfer (Sample.calm 100) 1%N
               (Sample.world {[1%N := Sample.recurring]})).1 !! 1%N
      = Some doc
    ∧ status doc = completed
    ∧ executedAt doc = Some 504
    ∧ length (transactionIds doc) = 1%nat
    ∧ transactionId doc = Some "tx_A".
Proof.
  destruct (all_sends_succeed_completes (Sample.calm 100) 1%N
              (Sample.world {[1%N := Sample.recurring]}) Sample.recurring
              {| Auth.isValid := true; Auth.maxAmount := 100 |})
    as (doc & Hr & Hstore & Hstatus & Hat & Hids & Hlen & Hone).
  - intros n. split; reflexivity.
  - vm_compute; reflexivity.
  - reflexivity.
  - reflexivity.
  - reflexivity.
  - vm_compute; reflexivity.
  - intros i r _. eexists. split; reflexivity.
  - exists doc. repeat split; try assumption.
    destruct (Hone eq_refl) as (first & Hhead & Htx).
    rewrite Htx. rewrite Hids in Hhead. vm_compute in Hhead.
    injection Hhead as <-. reflexivity.
Defined.

(** ** Amounts *)

Lemma sendCalls_new w w' evs :
  trace w' = trace w ++ evs → sendCalls (newEvents w w') = sendCalls evs.
Proof. intros H. by rewrite (newEvents_app _ _ _ H). Qed.

Lemma generateCalls_new w w' evs :
  trace w' = trace w ++ evs →
  generateCalls (newEvents w w') = generateCalls evs.
Proof. intros H. by rewrite (newEvents_app _ _ _ H). Qed.

(** Once the [executing] status is saved, the sends made are exactly one
    per recipient, in list order, whatever happens afterwards. *)
Lemma sends_of_execution env id w t a :
  Fanned env id w t a →
  sendCalls (newEvents w (executeScheduledTransfer env id w).1)
  = map (sendEvent (set_status executing t) (normalizedRecipients t))
      (normalizedRecipients t).
Proof.
  intros HF. rewrite executeScheduledTransfer_run.
  destruct (forallb isCompleted (sendResults env t w)) eqn:Hall.
  - destruct (save_fault env (tick (sentWorld id t w))) as [m|] eqn:Hsave.
    + rewrite (body_final_save_fails env id w t a m HF Hall Hsave).
      cbn [fst]. erewrite sendCalls_new.
      2:{ rewrite trace_handled. cbn [trace logged]. rewrite trace_sent.
          rewrite <- !app_assoc. reflexivity. }
      rewrite !sendCalls_app, sendCalls_handler, sendCalls_sends.
      cbn. by rewrite app_nil_r.
    + rewrite (body_all_sent env id w t a HF Hall Hsave).
      cbn [fst]. erewrite sendCalls_new.
      2:{ rewrite trace_expanded. cbn [trace logged with_store].
          rewrite trace_sent. rewrite <- !app_assoc. reflexivity. }
      rewrite !sendCalls_app, sendCalls_expander, sendCalls_sends.
      cbn. by rewrite app_nil_r.
  - rewrite (body_sends_failed env id w t a HF Hall).
    cbn [fst]. erewrite sendCalls_new.
    2:{ rewrite trace_handled, trace_sent. rewrite <- !app_assoc.
        reflexivity. }
    rewrite !sendCalls_app, sendCalls_handler, sendCalls_sends.
    cbn. by rewrite app_nil_r.
Qed.

(** C5: the total checked against the authorization is
    [amount * recipientCount] when [amountPerRecipient] is set and [amount]
    otherwise; each send carries [amount] when the flag is set and
    [amount / recipientCount] otherwise.  A total over the maximum ends the
    execution without a send; otherwise, once the [executing] status is
    saved, one send per recipient is made, each with that amount. *)
Theorem amounts_as_computed env id w t a :
  Loaded env id w t →
  authorization_of env (S (tick w)) (userAddress t) = Returned a →
  Auth.isValid a = true →
  totalAmount t (normalizedRecipients t)
  = (if amountPerRecipient t
     then PrimFloat.mul (amount t) (lengthNumber (normalizedRecipients t))
     else amount t)
  ∧ recipientAmount t (normalizedRecipients t)
    = (if amountPerRecipient t
       then amount t
       else PrimFloat.div (amount t) (lengthNumber (normalizedRecipients t)))
  ∧ (PrimFloat.ltb (Auth.maxAmount a)
       (totalAmount t (normalizedRecipients t)) = true →
     (executeScheduledTransfer env id w).2
     = Returned (ExecFailure (exceedsMessage env t a))
     ∧ sendCalls (newEvents w (executeScheduledTransfer env id w).1) = [])
  ∧ (PrimFloat.ltb (Auth.maxAmount a)
       (totalAmount t (normalizedRecipients t)) = false →
     save_fault env (S (S (tick w))) = None →
     sendCalls (newEvents w (executeScheduledTransfer env id w).1)
     = map (fun r =>
              ExecuteOnChain (userAddress t) (address r)
                (recipientAmount t (normalizedRecipients t)) (retryLimit t))
         (normalizedRecipients t)).
Proof.
  intros HL Hauth Hvalid. split; [done|]. split; [done|]. split.
  - intros Hlt.
    rewrite executeScheduledTransfer_run,
      (body_exceeds env id w t a HL Hauth Hvalid Hlt).
    cbn [fst snd]. split; [done|].
    erewrite sendCalls_new.
    2:{ rewrite trace_handled, trace_checked. rewrite <- !app_assoc.
        reflexivity. }
    by rewrite sendCalls_app, sendCalls_handler.
  - intros Hlt Hmark.
    assert (HF : Fanned env id w t a) by done.
    exact (sends_of_execution env id w t a HF).
Qed.

(** Thirty over [A], [B] and [C] against a maximum of one hundred: the
    total checked is thirty, and ten goes to each. *)
Lemma amounts_as_computed_witness :
  totalAmount Sample.threeWay (normalizedRecipients Sample.threeWay)
  = 30%float
  ∧ PrimFloat.ltb 100 30 = false
  ∧ sendCalls
      (newEvents (Sample.world {[1%N := Sample.threeWay]})
         (executeScheduledTransfer (Sample.calm 100) 1%N
            (Sample.world {[1%N := Sample.threeWay]})).1)
    = [ExecuteOnChain "0xuser" "A" 10 3;
       ExecuteOnChain "0xuser" "B" 10 3;
       ExecuteOnChain "0xuser" "C" 10 3].
Proof.
  destruct (amounts_as_computed (Sample.calm 100) 1%N
              (Sample.world {[1%N := Sample.threeWay]}) Sample.threeWay
              {| Auth.isValid := true; Auth.maxAmount := 100 |})
    as (Htotal & Heach & _ & Hsends).
  - repeat split; vm_compute; reflexivity.
  - reflexivity.
  - reflexivity.
  - split; [vm_compute; reflexivity|]. split; [reflexivity|].
    rewrite Hsends; [|vm_compute; reflexivity|reflexivity].
    vm_compute. reflexivity.
Defined.

(** ** The pass over the recipients *)

(** C6: whatever the sends do, the loop over the recipients does not
    throw and does not stop early: it makes one call per recipient in list
    order and yields one record per recipient in the same order, a thrown
    error giving a [failed] record with the error's message, an
    unsuccessful result a [failed] record, a successful one a [completed]
    record; [allSuccessful] ends up true exactly when every record is
    [completed]. *)
Theorem fanOut_attempts_every_recipient env transfer rs w :
  ∃ results,
    fanOut env transfer rs rs [] true w
    = (afterSends transfer rs rs w,
       Returned (results, forallb isCompleted results))
    ∧ store (afterSends transfer rs rs w) = store w
    ∧ newEvents w (afterSends transfer rs rs w)
      = map (fun r =>
               ExecuteOnChain (userAddress transfer) (address r)
                 (recipientAmount transfer rs) (retryLimit transfer)) rs
    ∧ length results = length rs
    ∧ map Result.recipient results = map address rs
    ∧ ∀ i r,
        rs !! i = Some r →
        results !! i
        = Some
            match chain_result env (tick w + i) (userAddress transfer)
                    (address r) (recipientAmount transfer rs)
                    (retryLimit transfer) with
            | Raised message =>
                {| Result.recipient := address r;
                   Result.transactionId := None;
                   Result.status := failed;
                   Result.error := Some message |}
            | Returned result =>
                {| Result.recipient := address r;
                   Result.transactionId := Send.transactionId result;
                   Result.status :=
                     if Send.success result then completed else failed;
                   Result.error := Send.error result |}
            end.
Proof.
  exists (sendRecords env transfer rs (tick w) rs).
  split; [by rewrite fanOut_run|]. split; [done|].
  split; [by apply newEvents_app|].
  split; [apply sendRecords_length|].
  split; [apply sendRecords_recipients|].
  intros i r Hr. rewrite (sendRecords_lookup _ _ _ _ _ _ _ Hr).
  unfold sendRecord. by destruct (chain_result _ _ _ _ _ _).
Qed.

(** The second of three sends throws, the third is still made. *)
Example fanOut_continues_after_throw :
  (fanOut
     {| findById_fault := fun _ => None; save_fault := fun _ => None;
        find_fault := fun _ => None;
        authorization_of := authorization_of (Sample.calm 100);
        chain_result := fun n _ to _ _ =>
          if (n =? 1)%nat then Raised "network down"
          else chain_result (Sample.calm 100) n "" to 0%float 0;
        next_instance := next_instance (Sample.calm 100);
        clock := clock (Sample.calm 100);
        numberToString := numberToString (Sample.calm 100) |}
     Sample.threeWay (normalizedRecipients Sample.threeWay)
     (normalizedRecipients Sample.threeWay) [] true
     (Sample.world ∅)).2
  = Returned
      ([ {| Result.recipient := "A"; Result.transactionId := Some "tx_A";
            Result.status := completed; Result.error := None |};
         {| Result.recipient := "B"; Result.transactionId := None;
            Result.status := failed; Result.error := Some "network down" |};
         {| Result.recipient := "C"; Result.transactionId := Some "tx_C";
            Result.status := completed; Result.error := None |} ],
       false).
Proof. vm_compute. reflexivity. Qed.

(** ** The recurrence expander *)

Ltac trace_norm :=
  rewrite ?trace_handled, ?trace_expanded;
  cbn [trace logged with_store];
  rewrite ?trace_sent, ?trace_markAttempt, ?trace_checked, ?trace_loaded;
  rewrite <- ?app_assoc.

Ltac no_generate :=
  erewrite generateCalls_new by (trace_norm; reflexivity);
  rewrite ?generateCalls_app, ?generateCalls_handler, ?generateCalls_sends;
  reflexivity.

(** C9: an execution that returns the success object has saved the
    transfer as [completed] and has called the expander exactly once, with
    the transfer's [parentRecurringId], when that is set (and not at all
    when it is not); an execution that returns the failure object has not
    called the expander; and when the expander throws after a fully
    successful execution, the error is swallowed: the call still returns the
    success object and the stored transfer is still [completed]. *)
Theorem expander_called_once_on_success env id w :
  match (executeScheduledTransfer env id w).2 with
  | Returned (ExecSuccess doc results) =>
      status doc = completed
      ∧ store (executeScheduledTransfer env id w).1 !! id = Some doc
      ∧ (∃ t, store w !! id = Some t
              ∧ parentRecurringId doc = parentRecurringId t)
      ∧ generateCalls (newEvents w (executeScheduledTransfer env id w).1)
        = match parentRecurringId doc with Some p => [p] | None => [] end
  | Returned (ExecFailure _) =>
      generateCalls (newEvents w (executeScheduledTransfer env id w).1) = []
  | Raised _ => False
  end
  ∧ ∀ t a p message,
      Fanned env id w t a →
      SendsSucceed env t w →
      save_fault env (tick (sentWorld id t w)) = None →
      parentRecurringId t = Some p →
      next_instance env (S (tick (sentWorld id t w))) p = Raised message →
      ∃ doc,
        (executeScheduledTransfer env id w).2
        = Returned (ExecSuccess doc (sendResults env t w))
        ∧ status doc = completed
        ∧ store (executeScheduledTransfer env id w).1 !! id = Some doc
        ∧ generateCalls (newEvents w (executeScheduledTransfer env id w).1)
          = [p].
Proof.
  split.
  - rewrite executeScheduledTransfer_run.
    destruct (executeBody_path env id w)
      as [ | | | | | | | | |t a HF Hall Hsave doc];
      cbn [fst snd]; try no_generate.
    subst doc.
    split; [apply completedTransfer_status|].
    split.
    { apply expanded_lookup. cbn [store with_store]. apply lookup_insert_eq. }
    split.
    { exists t. split; [apply HF | apply completedTransfer_parent]. }
    rewrite completedTransfer_parent.
    erewrite generateCalls_new by (trace_norm; reflexivity).
    rewrite ?generateCalls_app, generateCalls_sends, generateCalls_expander.
    reflexivity.
  - intros t a p message HF Hsends Hsave Hparent _.
    apply sends_succeed_completed in Hsends.
    rewrite executeScheduledTransfer_run,
      (body_all_sent env id w t a HF Hsends Hsave).
    cbn [fst snd]. eexists. split; [reflexivity|].
    split; [apply completedTransfer_status|].
    split.
    { apply expanded_lookup. cbn [store with_store]. apply lookup_insert_eq. }
    erewrite generateCalls_new by (trace_norm; reflexivity).
    rewrite ?generateCalls_app, generateCalls_sends, generateCalls_expander.
    by rewrite Hparent.
Qed.

(** The second half at a recurring instance whose expander throws. *)
Lemma expander_called_once_on_success_witness :
  ∃ doc,
    (executeScheduledTransfer (Sample.stuckExpander 100) 1%N
       (Sample.world {[1%N := Sample.recurring]})).2
    = Returned
        (ExecSuccess doc
           (sendResults (Sample.stuckExpander 100) Sample.recurring
              (Sample.world {[1%N := Sample.recurring]})))
    ∧ status doc = completed
    ∧ store (executeScheduledTransfer (Sample.stuckExpander 100) 1%N
               (Sample.world {[1%N := Sample.recurring]})).1 !! 1%N
      = Some doc
    ∧ generateCalls
        (newEvents (Sample.world {[1%N := Sample.recurring]})
           (executeScheduledTransfer (Sample.stuckExpander 100) 1%N
              (Sample.world {[1%N := Sample.recurring]})).1)
      = [7%N].
Proof.
  apply (proj2 (expander_called_once_on_success (Sample.stuckExpander 100)
                  1%N (Sample.world {[1%N := Sample.recurring]}))
           Sample.recurring
           {| Auth.isValid := true; Auth.maxAmount := 100 |} 7%N
           "recurrence definition not found").
  - repeat split; vm_compute; reflexivity.
  - intros i r _. eexists. split; reflexivity.
  - reflexivity.
  - reflexivity.
  - reflexivity.
Defined.

(** With an expander that throws, a recurring instance still completes,
    and the expander was called once with the parent id. *)
Example throwing_expander_is_swallowed :
  next_instance (Sample.stuckExpander 100) 5 7%N
  = Raised "recurrence definition not found"
  ∧ success
      match (executeScheduledTransfer (Sample.stuckExpander 100) 1%N
               (Sample.world {[1%N := Sample.recurring]})).2 with
      | Returned r => r
      | Raised m => ExecFailure m
      end = true
  ∧ status <$>
      store (executeScheduledTransfer (Sample.stuckExpander 100) 1%N
               (Sample.world {[1%N := Sample.recurring]})).1 !! 1%N
    = Some completed
  ∧ generateCalls
      (trace (executeScheduledTransfer (Sample.stuckExpander 100) 1%N
                (Sample.world {[1%N := Sample.recurring]})).1)
    = [7%N].
Proof. vm_compute. repeat split. Qed.

(** ** Totality *)

(** C10: [executeScheduledTransfer] returns for every id and every
    behaviour of its collaborators; a failure to load the transfer, a
    missing transfer, a status other than [scheduled], a throwing or
    invalid authorization, an amount over the maximum, a failing save and a
    failed send each come back as the failure object with the error's
    message, and the path on which nothing fails comes back as the success
    object with the transfer and the result records. *)
Theorem executeScheduledTransfer_total env id w :
  (∃ r, (executeScheduledTransfer env id w).2 = Returned r)
  ∧ (∀ m,
       findById_fault env (tick w) = Some m →
       (executeScheduledTransfer env id w).2 = Returned (ExecFailure m))
  ∧ (findById_fault env (tick w) = None →
     store w !! id = None →
     (executeScheduledTransfer env id w).2
     = Returned (ExecFailure "Scheduled transfer not found"))
  ∧ (∀ t,
       findById_fault env (tick w) = None →
       store w !! id = Some t →
       status t ≠ scheduled →
       (executeScheduledTransfer env id w).2
       = Returned (ExecFailure (statusMessage t)))
  ∧ (∀ t m,
       Loaded env id w t →
       authorization_of env (S (tick w)) (userAddress t) = Raised m →
       (executeScheduledTransfer env id w).2 = Returned (ExecFailure m))
  ∧ (∀ t a,
       Loaded env id w t →
       authorization_of env (S (tick w)) (userAddress t) = Returned a →
       Auth.isValid a = false →
       (executeScheduledTransfer env id w).2
       = Returned (ExecFailure "User authorization is invalid or expired"))
  ∧ (∀ t a,
       Loaded env id w t →
       authorization_of env (S (tick w)) (userAddress t) = Returned a →
       Auth.isValid a = true →
       PrimFloat.ltb (Auth.maxAmount a)
         (totalAmount t (normalizedRecipients t)) = true →
       (executeScheduledTransfer env id w).2
       = Returned (ExecFailure (exceedsMessage env t a)))
  ∧ (∀ t a m,
       Authorized env id w t a →
       save_fault env (S (S (tick w))) = Some m →
       (executeScheduledTransfer env id w).2 = Returned (ExecFailure m))
  ∧ (∀ t a,
       Fanned env id w t a →
       forallb isCompleted (sendResults env t w) = false →
       (executeScheduledTransfer env id w).2
       = Returned
           (ExecFailure (someFailedMessage t (sendResults env t w))))
  ∧ (∀ t a m,
       Fanned env id w t a →
       forallb isCompleted (sendResults env t w) = true →
       save_fault env (tick (sentWorld id t w)) = Some m →
       (executeScheduledTransfer env id w).2 = Returned (ExecFailure m))
  ∧ (∀ t a,
       Fanned env id w t a →
       forallb isCompleted (sendResults env t w) = true →
       save_fault env (tick (sentWorld id t w)) = None →
       (executeScheduledTransfer env id w).2
       = Returned
           (ExecSuccess
              (completedTransfer t (clock env (tick (sentWorld id t w)))
                 (sendResults env t w))
              (sendResults env t w))).
Proof.
  repeat split.
  - rewrite executeScheduledTransfer_run.
    destruct (executeBody env id w) as [w' [m|r]]; by eexists.
  - intros m H. by rewrite executeScheduledTransfer_run, (body_load_fails _ _ _ m H).
  - intros H1 H2.
    by rewrite executeScheduledTransfer_run, (body_not_found _ _ _ H1 H2).
  - intros t H1 H2 H3.
    by rewrite executeScheduledTransfer_run, (body_wrong_status _ _ _ t H1 H2 H3).
  - intros t m H1 H2.
    by rewrite executeScheduledTransfer_run, (body_check_throws _ _ _ t m H1 H2).
  - intros t a H1 H2 H3.
    by rewrite executeScheduledTransfer_run, (body_unauthorized _ _ _ t a H1 H2 H3).
  - intros t a H1 H2 H3 H4.
    by rewrite executeScheduledTransfer_run, (body_exceeds _ _ _ t a H1 H2 H3 H4).
  - intros t a m H1 H2.
    by rewrite executeScheduledTransfer_run, (body_mark_fails _ _ _ t a m H1 H2).
  - intros t a H1 H2.
    by rewrite executeScheduledTransfer_run, (body_sends_failed _ _ _ t a H1 H2).
  - intros t a m H1 H2 H3.
    by rewrite executeScheduledTransfer_run,
         (body_final_save_fails _ _ _ t a m H1 H2 H3).
  - intros t a H1 H2 H3.
    by rewrite executeScheduledTransfer_run, (body_all_sent _ _ _ t a H1 H2 H3).
Qed.

(** An unknown id, and a transfer one of whose two sends is rejected. *)
Lemma executeScheduledTransfer_total_witness :
  (executeScheduledTransfer (Sample.calm 100) 9%N (Sample.world ∅)).2
  = Returned (ExecFailure "Scheduled transfer not found")
  ∧ (executeScheduledTransfer (Sample.rejecting 100 "B") 1%N
       (Sample.world {[1%N := Sample.twoWay]})).2
    = Returned (ExecFailure "Some transfers failed: 1/2").
Proof.
  destruct (executeScheduledTransfer_total (Sample.calm 100) 9%N
              (Sample.world ∅))
    as (_ & _ & Hmissing & _).
  destruct (executeScheduledTransfer_total (Sample.rejecting 100 "B") 1%N
              (Sample.world {[1%N := Sample.twoWay]}))
    as (_ & _ & _ & _ & _ & _ & _ & _ & Hsend & _).
  split.
  - apply Hmissing; reflexivity.
  - apply (Hsend Sample.twoWay
             {| Auth.isValid := true; Auth.maxAmount := 100 |}).
    + repeat split; vm_compute; reflexivity.
    + vm_compute; reflexivity.
Defined.

(** ** The scheduler's pass over the due transfers *)

Lemma touched_app l l' : touched (l ++ l') = touched l ++ touched l'.
Proof. apply omap_app. Qed.

Lemma touched_cons ev l :
  touched (ev :: l)
  = match ev with FindById i | Save i _ => [i] | _ => [] end ++ touched l.
Proof. by destruct ev. Qed.

Lemma touched_sends transfer rs todo :
  touched (map (sendEvent transfer rs) todo) = [].
Proof. induction todo; [done|]. cbn. apply IHtodo. Qed.

Lemma touched_expander parent : touched (expanderEvents parent) = [].
Proof. by destruct parent. Qed.

Lemma touched_handler env id message w :
  Forall (fun i => i = id) (touched (handlerEvents env id message w)).
Proof.
  unfold handlerEvents.
  destruct (findById_fault env (tick w)); [by repeat constructor|].
  destruct (store w !! id); by repeat constructor.
Qed.

Lemma execute_returns env id w :
  ∃ r, (executeScheduledTransfer env id w).2 = Returned r.
Proof.
  rewrite executeScheduledTransfer_run.
  destruct (executeBody env id w) as [w' [m|r]]; by eexists.
Qed.

(** An execution starts by loading its transfer, and loads or saves no
    other document. *)
Lemma execute_touches env id w :
  ∃ evs,
    trace (executeScheduledTransfer env id w).1
    = trace w ++ FindById id :: evs
    ∧ Forall (fun i => i = id) (touched evs).
Proof.
  rewrite executeScheduledTransfer_run.
  destruct (executeBody_path env id w)
    as [ | | | | | | | | |t a HF Hall Hsave doc];
    cbn [fst snd]; eexists;
    (split; [trace_norm; cbn [app]; reflexivity|]);
    repeat first
      [ rewrite touched_cons | rewrite touched_app
      | rewrite touched_sends | rewrite touched_expander ];
    cbn [app];
    repeat first
      [ apply touched_handler
      | apply Forall_nil_2
      | apply Forall_cons_2; [reflexivity|]
      | apply Forall_app_2 ].
Qed.

(** An execution leaves every other stored document as it is. *)
Lemma execute_lookup_ne env id w k x :
  k ≠ id →
  store w !! k = Some x →
  store (executeScheduledTransfer env id w).1 !! k = Some x.
Proof.
  intros Hk Hx. rewrite executeScheduledTransfer_run.
  destruct (executeBody_path env id w)
    as [ | | | | | | | | |t a HF Hall Hsave doc];
    cbn [fst snd];
    rewrite ?handled_lookup_ne by done;
    try apply expanded_lookup;
    cbn [store logged with_store loadedWorld checkedWorld markAttempt];
    rewrite ?store_sent, ?lookup_insert_ne by done; done.
Qed.

(** The loop never throws: it is the sequence of the executions. *)
Lemma executeEach_run env todo results w :
  executeEach env todo results w
  = (runEach env todo w, Returned (results ++ entriesOf env todo w)).
Proof.
  revert results w. induction todo as [|tr rest IH]; intros results w.
  - cbn. unfold ret. by rewrite app_nil_r.
  - cbn [executeEach runEach fold_left entriesOf]. unfold bind, resultOf.
    destruct (execute_returns env tr.1 w) as [r Hr].
    destruct (executeScheduledTransfer env tr.1 w) as [w' o].
    cbn [fst snd] in *. subst o. rewrite IH.
    by rewrite <- app_assoc.
Qed.

Lemma entriesOf_ids env todo w :
  map Entry.transferId (entriesOf env todo w) = todo.*1.
Proof.
  revert w. induction todo as [|tr rest IH]; intros w; [done|].
  cbn. by rewrite IH.
Qed.

Lemma entriesOf_length env todo w :
  length (entriesOf env todo w) = length todo.
Proof.
  revert w. induction todo as [|tr rest IH]; intros w; [done|].
  cbn. by rewrite IH.
Qed.

(** The pass loads and saves only documents of the list it is given. *)
Lemma runEach_touches env todo w :
  ∃ evs,
    trace (runEach env todo w) = trace w ++ evs
    ∧ Forall (fun i => i ∈ todo.*1) (touched evs)
    ∧ ∀ i, i ∈ todo.*1 → i ∈ touched evs.
Proof.
  revert w. induction todo as [|tr rest IH]; intros w.
  - exists []. rewrite app_nil_r. repeat split; [constructor|].
    intros i Hi. by apply elem_of_nil in Hi.
  - cbn [runEach fold_left].
    destruct (execute_touches env tr.1 w) as (evs1 & H1 & F1).
    destruct (IH (executeScheduledTransfer env tr.1 w).1) as (evs2 & H2 & F2 & G2).
    exists ((FindById tr.1 :: evs1) ++ evs2).
    split; [|split].
    + unfold runEach in H2. rewrite H2, H1. by rewrite <- app_assoc.
    + rewrite touched_app, touched_cons. cbn [app fmap list_fmap].
      apply Forall_cons_2; [|apply Forall_app_2].
      * apply elem_of_cons. by left.
      * eapply Forall_impl; [exact F1|].
        intros i ->. apply elem_of_cons. by left.
      * eapply Forall_impl; [exact F2|].
        intros i Hi. apply elem_of_cons. by right.
    + intros i Hi. rewrite touched_app, touched_cons. cbn [app].
      cbn [fmap list_fmap] in Hi. apply elem_of_cons in Hi as [->|Hi].
      * apply elem_of_cons. by left.
      * apply elem_of_cons. right. apply elem_of_app. right. by apply G2.
Qed.

(** The pass leaves the documents outside the list as they are. *)
Lemma runEach_lookup env todo w k x :
  k ∉ todo.*1 →
  store w !! k = Some x →
  store (runEach env todo w) !! k = Some x.
Proof.
  revert w. induction todo as [|tr rest IH]; intros w Hk Hx; [done|].
  cbn [fmap list_fmap] in Hk. apply not_elem_of_cons in Hk as [Hne Hk].
  cbn [runEach fold_left]. apply IH; [done|].
  by apply execute_lookup_ne.
Qed.

#[global] Instance byScheduledDate_total : Total byScheduledDate.
Proof. intros a b. unfold byScheduledDate. lia. Qed.

#[global] Instance byScheduledDate_trans : Transitive byScheduledDate.
Proof. intros a b c. unfold byScheduledDate. lia. Qed.

(** The query yields exactly the stored transfers that are [scheduled]
    and due. *)
Lemma elem_of_dueTransfers now m id t :
  (id, t) ∈ dueTransfers now m
  ↔ m !! id = Some t ∧ status t = scheduled ∧ scheduledDate t ≤ now.
Proof.
  unfold dueTransfers. rewrite merge_sort_Permutation.
  rewrite list_elem_of_filter, elem_of_map_to_list. cbn [snd].
  unfold IsDue. tauto.
Qed.

Lemma dueTransfers_sorted now m :
  StronglySorted byScheduledDate (dueTransfers now m).
Proof. apply StronglySorted_merge_sort; apply _. Qed.

(** [processDueTransfers] when the query goes through. *)
Lemma processDueTransfers_run env w :
  find_fault env (tick w) = None →
  processDueTransfers env w
  = let now := clock env (tick w) in
    let due := dueTransfers now (store w) in
    let w1 := logged (FindDue now) w in
    if (length due =? 0)%nat
    then (w1, Returned (NothingDue 0 "No due transfers to process"))
    else
      (runEach env due w1,
       Returned
         (Processed (length due)
            (successfulCount (entriesOf env due w1))
            (failedEntries (entriesOf env due w1))
            (entriesOf env due w1))).
Proof.
  intros Hfind. unfold processDueTransfers, tryCatch, bind, newDate, find.
  rewrite Hfind. cbv zeta.
  destruct (length (dueTransfers (clock env (tick w)) (store w)) =? 0)%nat;
    [done|].
  by rewrite executeEach_run.
Qed.

Lemma processDueTransfers_query_fails env w m :
  find_fault env (tick w) = Some m →
  processDueTransfers env w
  = (logged (FindDue (clock env (tick w))) w, Raised m).
Proof.
  intros Hfind. unfold processDueTransfers, tryCatch, bind, newDate, find.
  by rewrite Hfind.
Qed.

Lemma counts_add_up (results : list Entry.t) :
  (successfulCount results + failedEntries results)%nat = length results.
Proof.
  unfold successfulCount, failedEntries.
  induction results as [|r rest IH]; [done|].
  rewrite !filter_cons.
  destruct (success (Entry.result r)); repeat case_decide; try done;
    cbn [length]; lia.
Qed.

(** C7: when the query goes through, the transfers it yields are exactly
    the stored ones that are [scheduled] and whose [scheduledDate] is at
    most [now], in ascending [scheduledDate] order; [processDueTransfers]
    executes them one after the other in that order, its result entries
    carry their ids in that order, the documents it loads or saves are
    exactly theirs, and a stored transfer that is not due is left as it
    is. *)
Theorem due_transfers_executed_in_order env w :
  find_fault env (tick w) = None →
  (∀ id t,
     (id, t) ∈ dueTransfers (clock env (tick w)) (store w)
     ↔ store w !! id = Some t
       ∧ status t = scheduled
       ∧ scheduledDate t ≤ clock env (tick w))
  ∧ StronglySorted byScheduledDate
      (dueTransfers (clock env (tick w)) (store w))
  ∧ (processDueTransfers env w).1
    = runEach env (dueTransfers (clock env (tick w)) (store w))
        (logged (FindDue (clock env (tick w))) w)
  ∧ summaryIds (processDueTransfers env w).2
    = (dueTransfers (clock env (tick w)) (store w)).*1
  ∧ (∀ id,
       id ∈ touched (newEvents w (processDueTransfers env w).1)
       ↔ id ∈ (dueTransfers (clock env (tick w)) (store w)).*1)
  ∧ (∀ id t,
       store w !! id = Some t →
       ¬ IsDue (clock env (tick w)) t →
       store (processDueTransfers env w).1 !! id = Some t).
Proof.
  intros Hfind.
  set (now := clock env (tick w)). set (due := dueTransfers now (store w)).
  assert (Hw : (processDueTransfers env w).1
               = runEach env due (logged (FindDue now) w)).
  { rewrite (processDueTransfers_run env w Hfind). cbv zeta.
    fold now due. destruct due; done. }
  split; [intros id t; apply elem_of_dueTransfers|].
  split; [apply dueTransfers_sorted|].
  split; [exact Hw|].
  split; [|split].
  - rewrite (processDueTransfers_run env w Hfind). cbv zeta. fold now due.
    destruct due as [|tr rest] eqn:E; [done|].
    cbn [length Nat.eqb snd summaryIds]. apply entriesOf_ids.
  - intros id. rewrite Hw.
    destruct (runEach_touches env due (logged (FindDue now) w))
      as (evs & Htrace & Hall & Hex).
    rewrite (newEvents_app w _ ([FindDue now] ++ evs)).
    2:{ rewrite Htrace. cbn [trace logged]. by rewrite <- app_assoc. }
    rewrite touched_app. cbn [touched omap app]. fold (touched evs).
    split; [|apply Hex].
    intros Hid. by apply (proj1 (Forall_forall _ _) Hall).
  - intros id t Hfound Hnot. rewrite Hw.
    apply runEach_lookup; [|done].
    intros Hin. apply list_elem_of_fmap in Hin as ([id' t'] & -> & Hin).
    apply elem_of_dueTransfers in Hin as (Hs & Hst & Hdate).
    cbn [fst] in Hfound. rewrite Hs in Hfound. injection Hfound as ->.
    by apply Hnot.
Qed.

(** With [now = 500] and transfers due at 490, 495 and 505: the first two
    are executed, oldest first, and the third is left as it is. *)
Lemma due_transfers_executed_in_order_witness :
  summaryIds (processDueTransfers (Sample.calm 100)
                (Sample.world Sample.calendar)).2
  = [3%N; 2%N]
  ∧ store (processDueTransfers (Sample.calm 100)
             (Sample.world Sample.calendar)).1 !! 1%N
    = Some (Sample.transfer ["A"] 1 false 505 scheduled None).
Proof.
  destruct (due_transfers_executed_in_order (Sample.calm 100)
              (Sample.world Sample.calendar) eq_refl)
    as (_ & _ & _ & Hids & _ & Hkept).
  split.
  - rewrite Hids. vm_compute. reflexivity.
  - apply Hkept; [vm_compute; reflexivity|].
    intros [_ Hdate]. vm_compute in Hdate. apply Hdate. reflexivity.
Defined.

(** ** The scheduler's summary *)

(** C8, as stated, fails: with nothing due the function returns
    [{ processed: 0, message }], which has no [successful], [failed] or
    [results]. *)
Lemma nothing_due_has_no_counts :
  (processDueTransfers (Sample.calm 100) (Sample.world ∅)).2
  = Returned (NothingDue 0 "No due transfers to process")
  ∧ (processDueTransfers (Sample.calm 100) (Sample.world ∅)).2
    ≠ Returned (Processed 0 0 0 []).
Proof. split; [vm_compute; reflexivity|]. vm_compute. congruence. Qed.

(** C8, amended: [processDueTransfers] throws exactly when the query
    itself throws, and then with the query's error; with nothing due it
    returns [{ processed: 0, message }]; otherwise it returns
    [{ processed, successful, failed, results }] with one entry per due
    transfer and [successful + failed = processed], however many of the
    transfers fail. *)
Theorem processDueTransfers_summary env w :
  match find_fault env (tick w) with
  | Some m => (processDueTransfers env w).2 = Raised m
  | None =>
      if (length (dueTransfers (clock env (tick w)) (store w)) =? 0)%nat
      then
        (processDueTransfers env w).2
        = Returned (NothingDue 0 "No due transfers to process")
      else
        ∃ results,
          (processDueTransfers env w).2
          = Returned
              (Processed
                 (length (dueTransfers (clock env (tick w)) (store w)))
                 (successfulCount results) (failedEntries results) results)
          ∧ length results
            = length (dueTransfers (clock env (tick w)) (store w))
          ∧ map Entry.transferId results
            = (dueTransfers (clock env (tick w)) (store w)).*1
          ∧ (successfulCount results + failedEntries results)%nat
            = length (dueTransfers (clock env (tick w)) (store w))
  end.
Proof.
  destruct (find_fault env (tick w)) as [m|] eqn:Hfind.
  - by rewrite (processDueTransfers_query_fails env w m Hfind).
  - rewrite (processDueTransfers_run env w Hfind). cbv zeta.
    destruct (length (dueTransfers (clock env (tick w)) (store w)) =? 0)%nat;
      [done|].
    eexists. split; [reflexivity|].
    split; [apply entriesOf_length|].
    split; [apply entriesOf_ids|].
    by rewrite counts_add_up, entriesOf_length.
Qed.

(** Two due transfers, both rejected by the chain: the summary is still
    returned, with both counted as failed. *)
Example every_transfer_fails :
  match (processDueTransfers (Sample.rejecting 100 "A")
           (Sample.world
              (<[1%N := Sample.transfer ["A"] 1 false 490 scheduled None]>
                 {[2%N := Sample.transfer ["A"] 2 false 495 scheduled
                            None]}))).2 with
  | Returned (Processed n ok ko results) => (n, ok, ko, length results)
  | _ => (0, 0, 0, 0)%nat
  end = (2, 0, 2, 2)%nat.
Proof. vm_compute. reflexivity. Qed.

(** * Further properties of the engine *)

(** ** What an execution may touch *)

Lemma handled_store env id message w t :
  storeWorks env →
  store w !! id = Some t →
  store (handledWorld env id message w)
  = <[id := failedTransfer t (clock env (S (tick w))) message]> (store w).
Proof.
  intros Hs Hfound. unfold handledWorld.
  by rewrite (proj1 (Hs _)), Hfound, (proj2 (Hs _)).
Qed.

Lemma handled_is_Some env id message w k :
  is_Some (store w !! k) →
  is_Some (store (handledWorld env id message w) !! k).
Proof.
  intros Hk. destruct (decide (k = id)) as [->|Hne].
  - unfold handledWorld.
    destruct (findById_fault env (tick w)); [done|].
    destruct (store w !! id) eqn:E; [|done].
    destruct (save_fault env (S (tick w)));
      cbn [store logged with_store loadedWorld].
    + by rewrite E.
    + rewrite lookup_insert_eq. by eexists.
  - by rewrite handled_lookup_ne.
Qed.

Lemma execute_keeps_documents env id w k :
  is_Some (store w !! k) →
  is_Some (store (executeScheduledTransfer env id w).1 !! k).
Proof.
  intros Hk. destruct (decide (k = id)) as [->|Hne].
  2:{ destruct Hk as [x Hx]. exists x. by apply execute_lookup_ne. }
  rewrite executeScheduledTransfer_run.
  destruct (executeBody_path env id w)
    as [ | | | | | | | | |t a HF Hall Hsave doc];
    cbn [fst snd];
    try (apply handled_is_Some;
         cbn [store logged with_store loadedWorld checkedWorld markAttempt];
         rewrite ?store_sent, ?lookup_insert_eq; done).
  eexists. apply expanded_lookup. cbn [store with_store].
  apply lookup_insert_eq.
Qed.

(** X1: an execution never removes a document, leaves every document
    other than its own exactly as it was, and loads and saves by id only
    its own document. *)
Theorem execution_touches_only_its_transfer env id w :
  dom (store w) ⊆ dom (store (executeScheduledTransfer env id w).1)
  ∧ (∀ k x,
       k ≠ id →
       store w !! k = Some x →
       store (executeScheduledTransfer env id w).1 !! k = Some x)
  ∧ Forall (fun i => i = id)
      (touched (newEvents w (executeScheduledTransfer env id w).1)).
Proof.
  split; [|split].
  - apply elem_of_subseteq. intros k Hk. apply elem_of_dom.
    apply execute_keeps_documents. by apply elem_of_dom.
  - intros k x. apply execute_lookup_ne.
  - destruct (execute_touches env id w) as (evs & Htrace & Hall).
    rewrite (newEvents_app _ _ _ Htrace), touched_cons. cbn [app].
    by apply Forall_cons_2.
Qed.

(** ** How an execution settles its transfer *)

(** With a working database the stored transfer ends up [completed] when
    the call reports success and [failed] when it does not; unless the
    expander adds a document, nothing else in the store changes. *)
Lemma execute_settles env id w t :
  storeWorks env →
  store w !! id = Some t →
  ∃ d,
    store (executeScheduledTransfer env id w).1 !! id = Some d
    ∧ userAddress d = userAddress t
    ∧ status d
      = (if success (resultOf (executeScheduledTransfer env id w))
         then completed else failed)
    ∧ (parentRecurringId t = None
       ∨ success (resultOf (executeScheduledTransfer env id w)) = false →
       store (executeScheduledTransfer env id w).1 = <[id := d]> (store w)).
Proof.
  intros Hs Hfound. unfold resultOf.
  pose proof (fun n => proj1 (Hs n)) as Hload.
  pose proof (fun n => proj2 (Hs n)) as Hsave.
  rewrite executeScheduledTransfer_run.
  destruct (executeBody_path env id w)
    as [ | | | | | | | | |t' a HF Hall Hfinal doc];
    path_facts; simplify_eq; try congruence; cbn [fst snd success].
  - rewrite (handled_store env id _ _ t Hs) by done.
    eexists. split; [apply lookup_insert_eq|]. by repeat split.
  - rewrite (handled_store env id _ _ t Hs) by done.
    eexists. split; [apply lookup_insert_eq|]. by repeat split.
  - rewrite (handled_store env id _ _ t Hs) by done.
    eexists. split; [apply lookup_insert_eq|]. by repeat split.
  - rewrite (handled_store env id _ _ t Hs) by done.
    eexists. split; [apply lookup_insert_eq|]. by repeat split.
  - rewrite (handled_store env id _ _ (set_status executing t) Hs)
      by (rewrite store_sent; apply lookup_insert_eq).
    eexists. split; [apply lookup_insert_eq|].
    split; [done|]. split; [done|]. intros _.
    rewrite store_sent. apply insert_insert_eq.
  - subst doc. eexists. split.
    { apply expanded_lookup. cbn [store with_store]. apply lookup_insert_eq. }
    split.
    { unfold completedTransfer.
      destruct (length (normalizedRecipients t) =? 1)%nat; [|done].
      by destruct (sendResults env t w). }
    split; [apply completedTransfer_status|].
    intros [Hnone|?]; [|done]. rewrite Hnone. cbn [expanded store with_store].
    rewrite store_sent. apply insert_insert_eq.
Qed.

(** X2: with a working database, executing a stored transfer always
    leaves it in a terminal status: [completed] exactly when the call
    returns the success object, [failed] otherwise; it is never left
    [scheduled] or [executing]. *)
Theorem execution_settles_transfer env id w t :
  storeWorks env →
  store w !! id = Some t →
  ∃ d,
    store (executeScheduledTransfer env id w).1 !! id = Some d
    ∧ match (executeScheduledTransfer env id w).2 with
      | Returned (ExecSuccess _ _) => status d = completed
      | Returned (ExecFailure _) => status d = failed
      | Raised _ => False
      end.
Proof.
  intros Hs Hfound.
  destruct (execute_settles env id w t Hs Hfound) as (d & Hd & _ & Hst & _).
  exists d. split; [done|].
  destruct (execute_returns env id w) as [r Hr].
  unfold resultOf in Hst. rewrite Hr in *. by destruct r.
Qed.

(** A transfer that was cancelled is executed with a working database. *)
Lemma execution_settles_transfer_witness :
  ∃ d,
    store (executeScheduledTransfer (Sample.calm 100) 1%N
             (Sample.world
                {[1%N := Sample.transfer ["A"] 5 false 10 cancelled None]})).1
      !! 1%N = Some d
    ∧ status d = failed.
Proof.
  destruct (execution_settles_transfer (Sample.calm 100) 1%N
              (Sample.world
                 {[1%N := Sample.transfer ["A"] 5 false 10 cancelled None]})
              (Sample.transfer ["A"] 5 false 10 cancelled None))
    as (d & Hd & Hst).
  - intros n. split; reflexivity.
  - vm_compute. reflexivity.
  - exists d. split; [exact Hd|]. vm_compute in Hst. exact Hst.
Defined.

(** ** An id that is not stored *)

(** X3: for an id under which nothing is stored, the call returns the
    "not found" failure, looks the id up twice (once in the body, once in
    the [catch] block), saves nothing and leaves the store as it was. *)
Theorem unknown_id_writes_nothing env id w :
  findById_fault env (tick w) = None →
  store w !! id = None →
  (executeScheduledTransfer env id w).2
  = Returned (ExecFailure "Scheduled transfer not found")
  ∧ newEvents w (executeScheduledTransfer env id w).1
    = [FindById id; FindById id]
  ∧ store (executeScheduledTransfer env id w).1 = store w.
Proof.
  intros Hload Hnone.
  rewrite executeScheduledTransfer_run, (body_not_found env id w Hload Hnone).
  cbn [fst snd]. split; [done|]. split.
  - apply newEvents_app. rewrite trace_handled, trace_loaded.
    rewrite <- app_assoc. f_equal. unfold handlerEvents.
    change (store (loadedWorld id w)) with (store w). rewrite Hnone.
    by destruct (findById_fault env (tick (loadedWorld id w))).
  - unfold handledWorld.
    change (store (loadedWorld id w)) with (store w). rewrite Hnone.
    by destruct (findById_fault env (tick (loadedWorld id w))).
Qed.

Lemma unknown_id_writes_nothing_witness :
  (executeScheduledTransfer (Sample.calm 100) 9%N
     (Sample.world {[1%N := Sample.twoWay]})).2
  = Returned (ExecFailure "Scheduled transfer not found")
  ∧ store (executeScheduledTransfer (Sample.calm 100) 9%N
             (Sample.world {[1%N := Sample.twoWay]})).1
    = {[1%N := Sample.twoWay]}.
Proof.
  destruct (unknown_id_writes_nothing (Sample.calm 100) 9%N
              (Sample.world {[1%N := Sample.twoWay]}))
    as (Hr & _ & Hstore).
  - reflexivity.
  - vm_compute. reflexivity.
  - split; [exact Hr | exact Hstore].
Defined.

(** ** When funds can move *)


(** X5: a transfer without a recipient list (missing or empty) is sent
    once, to its legacy [recipient]; the amount of that send is [amount]
    when [amountPerRecipient] is set and [amount / 1] otherwise. *)
Theorem legacy_transfer_sends_once env id w t a :
  recipients t = None ∨ recipients t = Some [] →
  Fanned env id w t a →
  sendCalls (newEvents w (executeScheduledTransfer env id w).1)
  = [ExecuteOnChain (userAddress t) (recipient t)
       (if amountPerRecipient t then amount t
        else PrimFloat.div (amount t) 1)
       (retryLimit t)].
Proof.
  intros Hlegacy HF. rewrite (sends_of_execution env id w t a HF).
  assert (Hrs : normalizedRecipients t = [ {| address := recipient t |} ]).
  { unfold normalizedRecipients. by destruct Hlegacy as [-> | ->]. }
  rewrite Hrs. reflexivity.
Qed.

Lemma legacy_transfer_sends_once_witness :
  sendCalls
    (newEvents (Sample.world {[1%N := Cases.legacy]})
       (executeScheduledTransfer (Sample.calm 100) 1%N
          (Sample.world {[1%N := Cases.legacy]})).1)
  = [ExecuteOnChain "0xuser" "0xold" 7 3].
Proof.
  rewrite (legacy_transfer_sends_once (Sample.calm 100) 1%N
             (Sample.world {[1%N := Cases.legacy]}) Cases.legacy
             {| Auth.isValid := true; Auth.maxAmount := 100 |}).
  - vm_compute. reflexivity.
  - right. reflexivity.
  - repeat split; vm_compute; reflexivity.
Defined.

(** ** The failure ratio *)

Lemma sendRecord_status env transfer rs n r :
  Result.status (sendRecord env transfer rs n r) = completed
  ∨ Result.status (sendRecord env transfer rs n r) = failed.
Proof.
  unfold sendRecord.
  destruct (chain_result _ _ _ _ _ _) as [m|result]; [by right|].
  cbn. destruct (Send.success result); auto.
Qed.

Lemma sendRecords_status env transfer rs n todo rec :
  rec ∈ sendRecords env transfer rs n todo →
  Result.status rec = completed ∨ Result.status rec = failed.
Proof.
  revert n. induction todo as [|r rest IH]; intros n Hin.
  - by apply elem_of_nil in Hin.
  - cbn [sendRecords] in Hin. apply elem_of_cons in Hin as [->|Hin].
    + apply sendRecord_status.
    + by apply (IH (S n)).
Qed.

Lemma forallb_false_elem {A} (f : A -> bool) (l : list A) :
  forallb f l = false → ∃ x, x ∈ l ∧ f x = false.
Proof.
  induction l as [|x l IH]; [done|]. cbn [forallb].
  destruct (f x) eqn:E; cbn [andb].
  - intros H. destruct (IH H) as (y & Hy & Hf).
    exists y. split; [by apply elem_of_cons; right | done].
  - intros _. exists x. split; [apply elem_of_cons; by left | done].
Qed.

(** X6: when some send fails, the error message is
    "Some transfers failed: k/n" where [n] is the number of recipients and
    [k], the number of result records with status [failed], is at least
    one and at most [n]. *)
Theorem failure_ratio_is_sound env id w t a :
  Fanned env id w t a →
  forallb isCompleted (sendResults env t w) = false →
  ∃ k,
    (1 ≤ k ≤ length (normalizedRecipients t))%nat
    ∧ k = length
            (filter (fun r => Result.status r = failed) (sendResults env t w))
    ∧ (executeScheduledTransfer env id w).2
      = Returned
          (ExecFailure
             ("Some transfers failed: " +:+ pretty k +:+ "/"
              +:+ pretty (length (normalizedRecipients t)))).
Proof.
  intros HF Hall. exists (failedCount (sendResults env t w)).
  split; [|split; [done|]].
  - split.
    + apply forallb_false_elem in Hall as (rec & Hin & Hrec).
      assert (Hfailed : Result.status rec = failed).
      { destruct (sendRecords_status _ _ _ _ _ _ Hin) as [Hc|Hf]; [|done].
        unfold isCompleted in Hrec.
        rewrite bool_decide_eq_true_2 in Hrec; done. }
      unfold failedCount.
      destruct (filter _ (sendResults env t w)) as [|x l] eqn:E;
        [|cbn; lia].
      exfalso. eapply (filter_nil_not_elem_of _ _ rec E); done.
    + unfold failedCount. rewrite <- (sendResults_length env t w).
      apply length_filter.
  - by rewrite executeScheduledTransfer_run, (body_sends_failed env id w t a HF Hall).
Qed.

Lemma failure_ratio_is_sound_witness :
  ∃ k,
    (1 ≤ k ≤ 2)%nat
    ∧ (executeScheduledTransfer (Sample.rejecting 100 "B") 1%N
         (Sample.world {[1%N := Sample.twoWay]})).2
      = Returned
          (ExecFailure
             ("Some transfers failed: " +:+ pretty k +:+ "/" +:+ "2")).
Proof.
  destruct (failure_ratio_is_sound (Sample.rejecting 100 "B") 1%N
              (Sample.world {[1%N := Sample.twoWay]}) Sample.twoWay
              {| Auth.isValid := true; Auth.maxAmount := 100 |})
    as (k & Hk & _ & Hr).
  - repeat split; vm_compute; reflexivity.
  - vm_compute. reflexivity.
  - exists k. split; [exact Hk | exact Hr].
Defined.

(** ** A pass of the scheduler *)

Lemma dueTransfers_NoDup now m : NoDup (dueTransfers now m).*1.
Proof.
  unfold dueTransfers. rewrite merge_sort_Permutation.
  eapply sublist_NoDup; [apply (NoDup_fst_map_to_list m)|].
  apply fmap_sublist. apply sublist_filter.
Qed.

Lemma runEach_settles env todo w :
  storeWorks env →
  NoDup todo.*1 →
  (∀ tr, tr ∈ todo → is_Some (store w !! tr.1)) →
  Forall
    (fun e =>
       ∃ d,
         store (runEach env todo w) !! Entry.transferId e = Some d
         ∧ status d
           = if success (Entry.result e) then completed else failed)
    (entriesOf env todo w).
Proof.
  intros Hs. revert w.
  induction todo as [|tr rest IH]; intros w Hnd Hstored; [constructor|].
  cbn [fmap list_fmap] in Hnd. apply NoDup_cons in Hnd as [Hfresh Hnd].
  cbn [entriesOf runEach fold_left]. apply Forall_cons_2.
  - destruct (Hstored tr) as [t Ht]; [apply elem_of_cons; by left|].
    destruct (execute_settles env tr.1 w t Hs Ht) as (d & Hd & _ & Hst & _).
    exists d. cbn [Entry.transferId Entry.result]. split; [|done].
    by apply runEach_lookup.
  - apply IH; [done|]. intros tr' Hin.
    apply execute_keeps_documents, Hstored. apply elem_of_cons. by right.
Qed.

(** X7: with a working database, after [processDueTransfers] every
    transfer it selected is stored in a terminal status: [completed] when
    its result entry reports success and [failed] when it does not.  So no
    selected transfer is left [scheduled], and none is selected again by a
    later pass. *)
Theorem pass_settles_every_due_transfer env w :
  find_fault env (tick w) = None →
  storeWorks env →
  Forall
    (fun e =>
       ∃ d,
         store (processDueTransfers env w).1 !! Entry.transferId e = Some d
         ∧ status d
           = if success (Entry.result e) then completed else failed)
    (summaryResults (processDueTransfers env w).2)
  ∧ ∀ id t now',
      (id, t) ∈ dueTransfers (clock env (tick w)) (store w) →
      ∃ d,
        store (processDueTransfers env w).1 !! id = Some d
        ∧ (status d = completed ∨ status d = failed)
        ∧ ¬ IsDue now' d.
Proof.
  intros Hfind Hs.
  set (now := clock env (tick w)). set (due := dueTransfers now (store w)).
  set (w1 := logged (FindDue now) w).
  assert (Hall :
    Forall
      (fun e =>
         ∃ d,
           store (runEach env due w1) !! Entry.transferId e = Some d
           ∧ status d
             = if success (Entry.result e) then completed else failed)
      (entriesOf env due w1)).
  { apply runEach_settles; [done|apply dueTransfers_NoDup|].
    intros [id t] Hin. apply elem_of_dueTransfers in Hin as (Hin & _).
    by exists t. }
  assert (Hw : (processDueTransfers env w).1 = runEach env due w1).
  { rewrite (processDueTransfers_run env w Hfind). cbv zeta.
    fold now due w1. by destruct due. }
  split.
  - rewrite Hw. rewrite (processDueTransfers_run env w Hfind). cbv zeta.
    fold now due w1. destruct due; [constructor|exact Hall].
  - intros id t now' Hin. rewrite Hw.
    assert (Hid : id ∈ map Entry.transferId (entriesOf env due w1)).
    { rewrite entriesOf_ids. by apply (list_elem_of_fmap_2 fst _ (id, t)). }
    apply (list_elem_of_fmap (A:=Entry.t)) in Hid as (e & -> & He).
    destruct (proj1 (Forall_forall _ _) Hall e He) as (d & Hd & Hst).
    exists d. split; [done|].
    destruct (success (Entry.result e)).
    + split; [by left|]. intros [? _]. congruence.
    + split; [by right|]. intros [? _]. congruence.
Qed.

Lemma pass_settles_every_due_transfer_witness :
  ∃ d2 d3,
    store (processDueTransfers (Sample.calm 100)
             (Sample.world Sample.calendar)).1 !! 2%N = Some d2
    ∧ store (processDueTransfers (Sample.calm 100)
               (Sample.world Sample.calendar)).1 !! 3%N = Some d3
    ∧ (status d2 = completed ∨ status d2 = failed)
    ∧ (status d3 = completed ∨ status d3 = failed).
Proof.
  destruct (pass_settles_every_due_transfer (Sample.calm 100)
              (Sample.world Sample.calendar) eq_refl) as [_ Hdue].
  - intros n. split; reflexivity.
  - destruct (Hdue 2%N (Sample.transfer ["B"] 2 false 495 scheduled None) 0)
      as (d2 & H2 & S2 & _).
    { apply elem_of_dueTransfers. repeat split; vm_compute; congruence. }
    destruct (Hdue 3%N (Sample.transfer ["C"] 3 false 490 scheduled None) 0)
      as (d3 & H3 & S3 & _).
    { apply elem_of_dueTransfers. repeat split; vm_compute; congruence. }
    exists d2, d3. repeat split; assumption.
Defined.

(** * Statistics *)

Lemma countStatus_cons s t ts :
  countStatus s (t :: ts)
  = ((if decide (status t = s) then 1 else 0) + countStatus s ts)%nat.
Proof. unfold countStatus. rewrite filter_cons. by case_decide. Qed.

Lemma countStatus_partition ts :
  (countStatus scheduled ts + countStatus executing ts
   + countStatus completed ts + countStatus failed ts
   + countStatus cancelled ts)%nat
  = length ts.
Proof.
  induction ts as [|t ts IH]; [done|].
  rewrite !countStatus_cons. cbn [length]. rewrite <- IH.
  destruct (status t); repeat case_decide; try done; lia.
Qed.

#[global] Instance countStatus_perm s :
  Proper ((≡ₚ) ==> (=)) (countStatus s).
Proof. intros l l' H. unfold countStatus. by rewrite H. Qed.

Lemma matching_all_length m : length (matching None m) = size m.
Proof.
  unfold matching. rewrite length_fmap, <- length_map_to_list.
  induction (map_to_list m) as [|kt l IH]; [done|].
  rewrite filter_cons, decide_True by done. cbn [length]. by rewrite IH.
Qed.

Lemma elem_of_matching query m t :
  t ∈ matching query m ↔ ∃ id, m !! id = Some t ∧ Matches query t.
Proof.
  unfold matching. rewrite list_elem_of_fmap. split.
  - intros ([id t'] & -> & Hin).
    apply list_elem_of_filter in Hin as [HM Hin].
    apply elem_of_map_to_list in Hin. by exists id.
  - intros (id & Hid & HM). exists (id, t). split; [done|].
    apply list_elem_of_filter. split; [done|].
    by apply elem_of_map_to_list.
Qed.

(** X8: [getScheduledTransferStats] throws exactly when its query throws;
    otherwise the five per-status counts add up to [total], [total] is the
    number of stored transfers of the given user, or of all stored
    transfers when the address is missing or empty, and the store is left
    as it was. *)
Theorem stats_add_up env userAddress w :
  match (getScheduledTransferStats env userAddress w).2 with
  | Returned s =>
      find_fault env (tick w) = None
      ∧ (Stats.scheduled s + Stats.executing s + Stats.completed s
         + Stats.failed s + Stats.cancelled s)%nat
        = Stats.total s
      ∧ Stats.total s = length (matching (statsQuery userAddress) (store w))
      ∧ (userAddress = None ∨ userAddress = Some "" →
         Stats.total s = size (store w))
      ∧ (∀ t,
           t ∈ matching (statsQuery userAddress) (store w)
           ↔ ∃ id, store w !! id = Some t
                   ∧ Matches (statsQuery userAddress) t)
  | Raised m => find_fault env (tick w) = Some m
  end
  ∧ store (getScheduledTransferStats env userAddress w).1 = store w.
Proof.
  unfold getScheduledTransferStats.
  destruct (find_fault env (tick w)) as [m|]; cbn [fst snd]; [done|].
  split; [|done]. split; [done|].
  split; [apply countStatus_partition|]. split; [done|]. split.
  - intros [-> | ->]; apply matching_all_length.
  - intros t. apply elem_of_matching.
Qed.

(** ** Statistics across an execution *)

Lemma matching_insert query m id t d :
  m !! id = Some t →
  Matches query t →
  Matches query d →
  matching query (<[id := d]> m) ≡ₚ d :: matching query (delete id m)
  ∧ matching query m ≡ₚ t :: matching query (delete id m).
Proof.
  intros Hfound Ht Hd. unfold matching. split.
  - rewrite <- (insert_delete_eq m id d).
    rewrite map_to_list_insert by apply lookup_delete_eq.
    rewrite filter_cons. by rewrite decide_True.
  - rewrite <- (map_to_list_delete m id t Hfound).
    rewrite filter_cons. by rewrite decide_True.
Qed.

Lemma matching_insert_other query m id t d :
  m !! id = Some t →
  ¬ Matches query t →
  ¬ Matches query d →
  matching query (<[id := d]> m) ≡ₚ matching query m.
Proof.
  intros Hfound Ht Hd. unfold matching.
  rewrite <- (insert_delete_eq m id d).
  rewrite map_to_list_insert by apply lookup_delete_eq.
  rewrite <- (map_to_list_delete m id t Hfound).
  rewrite !filter_cons. by rewrite !decide_False.
Qed.

(** X9: with a working database, executing a [scheduled] transfer that
    is not an instance of a recurring transfer moves exactly one count of
    that user's statistics: [scheduled] goes down by one, [completed] goes
    up by one when the call reports success and [failed] goes up by one
    when it does not; [total], [executing] and [cancelled] stay. *)
Theorem execution_moves_one_count env id w t query :
  storeWorks env →
  store w !! id = Some t →
  status t = scheduled →
  parentRecurringId t = None →
  Matches query t →
  Stats.total
    (statsOf (matching query (store (executeScheduledTransfer env id w).1)))
  = Stats.total (statsOf (matching query (store w)))
  ∧ S (Stats.scheduled
         (statsOf
            (matching query (store (executeScheduledTransfer env id w).1))))
    = Stats.scheduled (statsOf (matching query (store w)))
  ∧ Stats.executing
      (statsOf (matching query (store (executeScheduledTransfer env id w).1)))
    = Stats.executing (statsOf (matching query (store w)))
  ∧ Stats.cancelled
      (statsOf (matching query (store (executeScheduledTransfer env id w).1)))
    = Stats.cancelled (statsOf (matching query (store w)))
  ∧ if success (resultOf (executeScheduledTransfer env id w))
    then
      Stats.completed
        (statsOf
           (matching query (store (executeScheduledTransfer env id w).1)))
      = S (Stats.completed (statsOf (matching query (store w))))
      ∧ Stats.failed
          (statsOf
             (matching query (store (executeScheduledTransfer env id w).1)))
        = Stats.failed (statsOf (matching query (store w)))
    else
      Stats.failed
        (statsOf
           (matching query (store (executeScheduledTransfer env id w).1)))
      = S (Stats.failed (statsOf (matching query (store w))))
      ∧ Stats.completed
          (statsOf
             (matching query (store (executeScheduledTransfer env id w).1)))
        = Stats.completed (statsOf (matching query (store w))).
Proof.
  intros Hs Hfound Hst Hparent HM.
  destruct (execute_settles env id w t Hs Hfound)
    as (d & _ & Huser & Hd & Hstore).
  rewrite (Hstore (or_introl Hparent)).
  assert (HMd : Matches query d).
  { destruct query as [u|]; [|done]. cbn in *. congruence. }
  destruct (matching_insert query (store w) id t d Hfound HM HMd)
    as [Hafter Hbefore].
  cbn [statsOf Stats.total Stats.scheduled Stats.executing Stats.completed
       Stats.failed Stats.cancelled].
  rewrite !Hafter, !Hbefore, !countStatus_cons. cbn [length].
  rewrite Hst.
  destruct (success (resultOf (executeScheduledTransfer env id w)));
    rewrite Hd; repeat case_decide; try done; repeat split; lia.
Qed.

Lemma execution_moves_one_count_witness :
  Stats.scheduled
    (statsOf (matching None (store (Sample.world Sample.calendar))))
  = 3%nat
  ∧ Stats.scheduled
      (statsOf
         (matching None
            (store (executeScheduledTransfer (Sample.calm 100) 2%N
                      (Sample.world Sample.calendar)).1)))
    = 2%nat.
Proof.
  destruct (execution_moves_one_count (Sample.calm 100) 2%N
              (Sample.world Sample.calendar)
              (Sample.transfer ["B"] 2 false 495 scheduled None) None)
    as (_ & Hsched & _).
  - intros n. split; reflexivity.
  - vm_compute. reflexivity.
  - reflexivity.
  - reflexivity.
  - exact I.
  - assert (H3 : Stats.scheduled
                   (statsOf
                      (matching None (store (Sample.world Sample.calendar))))
                 = 3%nat) by (vm_compute; reflexivity).
    split; [exact H3|].
    exact (Nat.succ_inj _ _ (eq_trans Hsched H3)).
Defined.

#[global] Instance statsOf_perm : Proper ((≡ₚ) ==> (=)) statsOf.
Proof. intros l l' H. unfold statsOf. by rewrite H. Qed.

(** X10: under the same conditions, the statistics of every other user
    are the same before and after the execution. *)
Theorem execution_keeps_other_statistics env id w t query :
  storeWorks env →
  store w !! id = Some t →
  parentRecurringId t = None →
  ¬ Matches query t →
  statsOf (matching query (store (executeScheduledTransfer env id w).1))
  = statsOf (matching query (store w)).
Proof.
  intros Hs Hfound Hparent HM.
  destruct (execute_settles env id w t Hs Hfound)
    as (d & _ & Huser & _ & Hstore).
  rewrite (Hstore (or_introl Hparent)).
  assert (HMd : ¬ Matches query d).
  { destruct query as [u|]; [|done]. cbn in *. congruence. }
  by rewrite (matching_insert_other query (store w) id t d Hfound HM HMd).
Qed.

Lemma execution_keeps_other_statistics_witness :
  statsOf
    (matching (Some "0xother")
       (store (executeScheduledTransfer (Sample.calm 100) 2%N
                 (Sample.world Sample.calendar)).1))
  = statsOf (matching (Some "0xother") Sample.calendar).
Proof.
  apply (execution_keeps_other_statistics (Sample.calm 100) 2%N
           (Sample.world Sample.calendar)
           (Sample.transfer ["B"] 2 false 495 scheduled None)).
  - intros n. split; reflexivity.
  - vm_compute. reflexivity.
  - reflexivity.
  - cbn. discriminate.
Defined.

(** * The chain layer *)

(** X11: the chain-side [executeScheduledTransfer] never throws: a
    simulated send makes no call and succeeds; otherwise an error thrown
    while submitting or sealing is returned as an unsuccessful result, and
    the result is successful exactly when the transaction was sealed with
    status 4 and status code 0. *)
Theorem chain_send_never_throws penv fcl n user to value retryLimit :
  ∃ r,
    (Flow.executeScheduledTransfer penv fcl n user to value retryLimit).2
    = Returned r
    ∧ (Flow.simulated penv = true →
       (Flow.executeScheduledTransfer penv fcl n user to value retryLimit).1
       = []
       ∧ Flow.success r = true)
    ∧ (Flow.simulated penv = false →
       (Flow.success r = true
        ↔ ∃ tx s,
            Flow.mutate fcl n user to value
              (match retryLimit with Some x => x | None => 3 end)
            = Returned tx
            ∧ Flow.onceSealed fcl n tx = Returned s
            ∧ Flow.status s = 4
            ∧ Flow.statusCode s = 0)).
Proof.
  unfold Flow.executeScheduledTransfer.
  destruct (Flow.simulated penv) eqn:Hsim.
  { eexists. split; [reflexivity|]. split; [|congruence].
    intros _. split; reflexivity. }
  unfold Flow.catching, Flow.andThen, Flow.call, Flow.pure.
  destruct (Flow.mutate fcl n user to value _) as [m|tx] eqn:Hm;
    cbn [fst snd].
  { eexists. split; [reflexivity|]. split; [congruence|]. intros _.
    cbn [Flow.success]. split; [congruence|].
    intros (tx' & s' & Htx & _). congruence. }
  destruct (Flow.onceSealed fcl n tx) as [m|s] eqn:Hseal; cbn [fst snd].
  { eexists. split; [reflexivity|]. split; [congruence|]. intros _.
    cbn [Flow.success]. split; [congruence|].
    intros (tx' & s' & Htx & Hs' & _). congruence. }
  eexists. split; [reflexivity|]. split; [congruence|]. intros _.
  cbn [Flow.success]. rewrite andb_true_iff, !Z.eqb_eq. split.
  - intros [H4 H0]. by exists tx, s.
  - intros (tx' & s' & Htx & Hs' & H4 & H0).
    assert (tx' = tx) as -> by congruence.
    assert (s' = s) as -> by congruence. by split.
Qed.

(** X12: the two functions of the chain layer decide on their own when to
    skip the chain.  With a service account configured and
    [SKIP_BLOCKCHAIN_CHECKS] set to "true", the authorization check makes no
    query and answers with the valid development authorization of 999999,
    while a send is submitted to the chain.  With the private key set, the
    service address missing and the checks not skipped, the authorization
    is queried from the chain, while a send is simulated and reported
    successful without a call. *)
Theorem bypass_and_simulation_differ penv fcl n user to value retryLimit :
  (Flow.unset (Flow.SERVICE_ACCOUNT_PRIVATE_KEY penv) = false →
   Flow.unset (Flow.SERVICE_ACCOUNT_ADDRESS penv) = false →
   Flow.SKIP_BLOCKCHAIN_CHECKS penv = Some "true" →
   Flow.checkAuthorization penv fcl n user
   = ([], Returned (Flow.developmentAuthorization (Flow.dateNow fcl n)))
   ∧ Flow.isValid (Flow.developmentAuthorization (Flow.dateNow fcl n)) = true
   ∧ Flow.maxAmount (Flow.developmentAuthorization (Flow.dateNow fcl n))
     = 999999%float
   ∧ head
       (Flow.executeScheduledTransfer penv fcl n user to value retryLimit).1
     = Some (Flow.Mutate user to value
               (match retryLimit with Some x => x | None => 3 end)))
  ∧ (Flow.unset (Flow.SERVICE_ACCOUNT_PRIVATE_KEY penv) = false →
     Flow.unset (Flow.SERVICE_ACCOUNT_ADDRESS penv) = true →
     Flow.SKIP_BLOCKCHAIN_CHECKS penv ≠ Some "true" →
     Flow.checkAuthorization penv fcl n user
     = ([Flow.Query user], Flow.query fcl n user)
     ∧ (Flow.executeScheduledTransfer penv fcl n user to value
          retryLimit).1 = []
     ∧ Flow.success
         match (Flow.executeScheduledTransfer penv fcl n user to value
                  retryLimit).2 with
         | Returned r => r
         | Raised _ =>
             {| Flow.success := false; Flow.transactionId := None;
                Flow.sealed := None; Flow.sentStatus := "";
                Flow.sentMessage := None; Flow.sentErrorMessage := None;
                Flow.error := None |}
         end = true).
Proof.
  split.
  - intros Hkey Haddr Hskip.
    unfold Flow.checkAuthorization, Flow.executeScheduledTransfer,
      Flow.isDevelopment, Flow.simulated.
    rewrite Hkey, Haddr, Hskip. cbn [orb].
    case_bool_decide; [|done].
    split; [reflexivity|]. split; [reflexivity|]. split; [reflexivity|].
    unfold Flow.catching, Flow.andThen, Flow.call.
    destruct (Flow.mutate fcl n user to value _) as [m|tx];
      [reflexivity|]. by destruct (Flow.onceSealed fcl n tx).
  - intros Hkey Haddr Hskip.
    unfold Flow.checkAuthorization, Flow.executeScheduledTransfer,
      Flow.isDevelopment, Flow.simulated.
    rewrite Hkey, Haddr. cbn [orb].
    case_bool_decide; [done|].
    split; [|done].
    unfold Flow.catching, Flow.call.
    destruct (Flow.query fcl n user); cbn [fst snd]; by rewrite ?app_nil_r.
Qed.

Lemma bypass_and_simulation_differ_witness :
  Flow.checkAuthorization Cases.skipping Cases.reverting 0 "0xuser"
  = ([], Returned (Flow.developmentAuthorization 1700000000000))
  ∧ head
      (Flow.executeScheduledTransfer Cases.skipping Cases.reverting 0
         "0xuser" "A" 10 None).1
    = Some (Flow.Mutate "0xuser" "A" 10 3).
Proof.
  destruct (proj1 (bypass_and_simulation_differ Cases.skipping
                     Cases.reverting 0 "0xuser" "A" 10 None))
    as (Hcheck & _ & _ & Hsend); try reflexivity.
  split; [exact Hcheck | exact Hsend].
Defined.

(** * The engine on top of the chain layer *)

(** X13: with the chain-side function as the engine's executor and sends
    not simulated, the engine's result record for a recipient is: [failed]
    with the thrown message when submitting or sealing throws; otherwise it
    carries the transaction id, is [completed] exactly when the transaction
    sealed with status 4 and status code 0, and has no [error] text, also
    for a transaction that sealed with an error (whose message the chain
    layer returns as [errorMessage], a field the engine does not read).
    The executor never throws into the engine. *)
Theorem live_send_records penv fcl base transfer rs n r :
  Flow.simulated penv = false →
  (∃ result,
     chain_result (wired penv fcl base) n (userAddress transfer) (address r)
       (recipientAmount transfer rs) (retryLimit transfer)
     = Returned result)
  ∧ sendRecord (wired penv fcl base) transfer rs n r
    = match Flow.mutate fcl n (userAddress transfer) (address r)
              (recipientAmount transfer rs) (retryLimit transfer) with
      | Raised m =>
          {| Result.recipient := address r;
             Result.transactionId := None;
             Result.status := failed;
             Result.error := Some m |}
      | Returned tx =>
          match Flow.onceSealed fcl n tx with
          | Raised m =>
              {| Result.recipient := address r;
                 Result.transactionId := None;
                 Result.status := failed;
                 Result.error := Some m |}
          | Returned s =>
              {| Result.recipient := address r;
                 Result.transactionId := Some tx;
                 Result.status :=
                   if (Flow.status s =? 4) && (Flow.statusCode s =? 0)
                   then completed else failed;
                 Result.error := None |}
          end
      end.
Proof.
  intros Hsim.
  unfold sendRecord, wired. cbn [chain_result].
  unfold Flow.executeScheduledTransfer. rewrite Hsim.
  unfold Flow.catching, Flow.andThen, Flow.call, Flow.pure.
  destruct (Flow.mutate fcl n _ _ _ _) as [m|tx]; cbn [fst snd outcomeMap].
  { split; [by eexists|done]. }
  destruct (Flow.onceSealed fcl n tx) as [m|s]; cbn [fst snd outcomeMap].
  { split; [by eexists|done]. }
  split; [by eexists|done].
Qed.

(** A transaction that seals with status code 1 and an error message. *)
Lemma live_send_records_witness :
  sendRecord (wired Cases.live Cases.reverting (Sample.calm 100))
    Sample.twoWay (normalizedRecipients Sample.twoWay) 3
    {| address := "A" |}
  = {| Result.recipient := "A"; Result.transactionId := Some "tx1";
       Result.status := failed; Result.error := None |}.
Proof.
  rewrite (proj2 (live_send_records Cases.live Cases.reverting
                    (Sample.calm 100) Sample.twoWay
                    (normalizedRecipients Sample.twoWay) 3
                    {| address := "A" |} eq_refl)).
  reflexivity.
Defined.

Lemma wired_storeWorks penv fcl base :
  storeWorks base → storeWorks (wired penv fcl base).
Proof. intros H n. exact (H n). Qed.

(** X14: without a service-account key (development mode), and with a
    working database, every stored [scheduled] transfer whose total does
    not exceed 999999 is executed successfully without any call to the
    chain: it ends up [completed], with one [completed] result record per
    recipient whose transaction id is "dev_tx_" followed by a timestamp. *)
Theorem development_mode_completes penv fcl base id w t :
  Flow.unset (Flow.SERVICE_ACCOUNT_PRIVATE_KEY penv) = true →
  storeWorks base →
  store w !! id = Some t →
  status t = scheduled →
  PrimFloat.ltb 999999 (totalAmount t (normalizedRecipients t)) = false →
  ∃ doc results,
    (executeScheduledTransfer (wired penv fcl base) id w).2
    = Returned (ExecSuccess doc results)
    ∧ store (executeScheduledTransfer (wired penv fcl base) id w).1 !! id
      = Some doc
    ∧ status doc = completed
    ∧ transactionIds doc = results
    ∧ length results = length (normalizedRecipients t)
    ∧ Forall
        (fun rec =>
           Result.status rec = completed
           ∧ ∃ now : Z,
               Result.transactionId rec = Some ("dev_tx_" +:+ pretty now))
        results
    ∧ (∀ n user, (Flow.checkAuthorization penv fcl n user).1 = [])
    ∧ (∀ n user to value retries,
         (Flow.executeScheduledTransfer penv fcl n user to value retries).1
         = []).
Proof.
  intros Hkey Hbase Hfound Hst Hlt.
  set (env := wired penv fcl base).
  assert (Hs : storeWorks env) by by apply wired_storeWorks.
  assert (Hdev : Flow.isDevelopment penv = true).
  { unfold Flow.isDevelopment. by rewrite Hkey. }
  assert (Hsim : Flow.simulated penv = true).
  { unfold Flow.simulated. by rewrite Hkey. }
  assert (Hrec : ∀ n r,
    sendRecord env (set_status executing t) (normalizedRecipients t) n r
    = {| Result.recipient := address r;
         Result.transactionId :=
           Some ("dev_tx_" +:+ pretty (Flow.dateNow fcl n));
         Result.status := completed;
         Result.error := None |}).
  { intros n r. unfold sendRecord, env, wired. cbn [chain_result].
    unfold Flow.executeScheduledTransfer. by rewrite Hsim. }
  assert (Hrecs : Forall
    (fun rec =>
       Result.status rec = completed
       ∧ ∃ now : Z,
           Result.transactionId rec = Some ("dev_tx_" +:+ pretty now))
    (sendResults env t w)).
  { unfold sendResults.
    assert (Hany : ∀ todo n,
      Forall
        (fun rec =>
           Result.status rec = completed
           ∧ ∃ now : Z,
               Result.transactionId rec = Some ("dev_tx_" +:+ pretty now))
        (sendRecords env (set_status executing t) (normalizedRecipients t)
           n todo)).
    { induction todo as [|r rest IH]; intros n; [constructor|].
      cbn [sendRecords]. apply Forall_cons_2; [|apply IH].
      rewrite Hrec. split; [done|]. by eexists. }
    apply Hany. }
  assert (HF : Fanned env id w t
                 (authRead
                    (Flow.developmentAuthorization
                       (Flow.dateNow fcl (S (tick w)))))).
  { repeat split; try done; try apply Hs.
    unfold env, wired. cbn [authorization_of].
    unfold Flow.checkAuthorization. by rewrite Hdev. }
  assert (Hall : forallb isCompleted (sendResults env t w) = true).
  { apply forallb_forall. intros rec Hin. apply list_elem_of_In in Hin.
    apply bool_decide_eq_true.
    exact (proj1 (proj1 (Forall_forall _ _) Hrecs rec Hin)). }
  rewrite executeScheduledTransfer_run,
    (body_all_sent env id w t _ HF Hall (proj2 (Hs _))).
  cbn [fst snd]. eexists _, _. split; [reflexivity|].
  split.
  { apply expanded_lookup. cbn [store with_store]. apply lookup_insert_eq. }
  split; [apply completedTransfer_status|].
  split.
  { unfold completedTransfer.
    destruct (length (normalizedRecipients t) =? 1)%nat; [|done].
    by destruct (sendResults env t w). }
  split; [apply sendResults_length|]. split; [exact Hrecs|]. split.
  - intros n user. unfold Flow.checkAuthorization. by rewrite Hdev.
  - intros n user to value retries.
    unfold Flow.executeScheduledTransfer. by rewrite Hsim.
Qed.

Lemma development_mode_completes_witness :
  ∃ doc results,
    (executeScheduledTransfer
       (wired Cases.development Cases.reverting (Sample.calm 100)) 1%N
       (Sample.world {[1%N := Sample.threeWay]})).2
    = Returned (ExecSuccess doc results)
    ∧ status doc = completed
    ∧ length results = 3%nat.
Proof.
  destruct (development_mode_completes Cases.development Cases.reverting
              (Sample.calm 100) 1%N
              (Sample.world {[1%N := Sample.threeWay]}) Sample.threeWay)
    as (doc & results & Hr & _ & Hst & _ & Hlen & _ & _ & _).
  - reflexivity.
  - intros n. split; reflexivity.
  - vm_compute. reflexivity.
  - reflexivity.
  - vm_compute. reflexivity.
  - exists doc, results. repeat split; assumption.
Defined.
